(** * dollar: the Version type and the snake_case to camelCase transformer

    A shallow embedding of [lib/Version.js] and of the functions
    [snake2camel], [isPrimitive], [extractIPv4] and [isNumericMap] of the
    library's index module, with the JavaScript values, strings, regular
    expressions and exceptions they rely on. *)

From Stdlib Require Import String Ascii ZArith NArith List Bool Lia.
From Stdlib Require Import Floats.SpecFloat.
Import ListNotations.

Set Implicit Arguments.

(* ================================================================== *)
(** * JavaScript strings *)

(** A string is a sequence of UTF-16 code units. *)
Abbreviation jschar := N (only parsing).
Abbreviation jsstring := (list N) (only parsing).

(** An ASCII literal as a JavaScript string. *)
Definition str (s : string) : jsstring :=
  map N_of_ascii (list_ascii_of_string s).

Definition jschar_eqb (a b : jschar) : bool := N.eqb a b.

Fixpoint jsstring_eqb (a b : jsstring) : bool :=
  match a, b with
  | [], [] => true
  | x :: a', y :: b' => jschar_eqb x y && jsstring_eqb a' b'
  | _, _ => false
  end.

Definition in_range (lo hi : N) (c : jschar) : bool := (N.leb lo c && N.leb c hi)%bool.

(** [\d] *)
Definition is_digit (c : jschar) : bool := in_range 48 57 c.
(** [[a-z]] *)
Definition is_lower (c : jschar) : bool := in_range 97 122 c.
(** A literal code unit. *)
Definition is_char (a : ascii) (c : jschar) : bool := jschar_eqb (N_of_ascii a) c.
(** One of the code units of [set]. *)
Definition one_of (set : string) (c : jschar) : bool :=
  existsb (jschar_eqb c) (str set).
(** [\s]: ECMAScript white space and line terminators. *)
Definition is_space (c : jschar) : bool :=
  (in_range 9 13 c
   || existsb (N.eqb c) [32; 160; 5760; 8232; 8233; 8239; 8287; 12288; 65279]%N
   || in_range 8192 8202 c)%bool.

(** [String.prototype.toUpperCase] on the code units of the ASCII range, the
    only ones the library applies it to (the letter captured by [[a-z]]). *)
Definition toUpperCase (s : jsstring) : jsstring :=
  map (fun c => if is_lower c then (c - 32)%N else c) s.

(** [s.substr(i, 1)]; for [i < s.length] this is [s[i]]. *)
Definition char_at (s : jsstring) (i : nat) : jsstring := firstn 1 (skipn i s).

(* ================================================================== *)
(** * Exceptions *)

Inductive exn :=
| TypeError          (* calling or indexing what is not there *)
| InvalidVersion.    (* [new Error('invalid version: ' + ver)] *)

Inductive result (A : Type) :=
| Ok (a : A)
| Throw (e : exn).
Arguments Ok {A} a.
Arguments Throw {A} e.

Definition bind {A B} (m : result A) (f : A -> result B) : result B :=
  match m with
  | Ok a => f a
  | Throw e => Throw e
  end.

Notation "x <- m ;; k" := (bind m (fun x => k))
  (at level 61, m at next level, right associativity).

Section MapM.
Context {A B : Type}.
Variable f : A -> result B.
(** [_.map] with a callback that may throw: the first exception wins. *)
Fixpoint mapM (l : list A) : result (list B) :=
  match l with
  | [] => Ok []
  | x :: l' => y <- f x ;; ys <- mapM l' ;; Ok (y :: ys)
  end.
End MapM.

(* ================================================================== *)
(** * Regular expressions

    The fragment of ECMAScript regular expressions the library uses, run by
    a backtracking matcher in continuation-passing style, as the language
    specification defines it.  No pattern of the library has a capturing
    group under a quantifier, so captures are never reset. *)

Inductive regex :=
| Eps                                  (* the empty pattern *)
| Chr (p : jschar -> bool)             (* one code unit of a class *)
| Seq (r1 r2 : regex)
| Alt (r1 r2 : regex)                  (* [r1|r2], left first *)
| Star (r : regex)                     (* greedy [r*] *)
| Group (i : nat) (r : regex)          (* the [i]-th capturing group *)
| Bol                                  (* [^] *)
| Eol.                                 (* [$] *)

(** Derived forms. *)
Definition Plus (r : regex) : regex := Seq r (Star r).
Definition Opt (r : regex) : regex := Alt r Eps.
Fixpoint UpTo (n : nat) (r : regex) : regex :=
  match n with
  | O => Eps
  | S n' => Opt (Seq r (UpTo n' r))
  end.
Fixpoint Times (n : nat) (r : regex) : regex :=
  match n with
  | O => Eps
  | S n' => Seq r (Times n' r)
  end.
(** Greedy [r{lo,hi}]. *)
Definition Range (lo hi : nat) (r : regex) : regex :=
  Seq (Times lo r) (UpTo (hi - lo) r).
Fixpoint Lit (s : jsstring) : regex :=
  match s with
  | [] => Eps
  | c :: s' => Seq (Chr (jschar_eqb c)) (Lit s')
  end.

Fixpoint ngroups (r : regex) : nat :=
  match r with
  | Seq r1 r2 | Alt r1 r2 => Nat.max (ngroups r1) (ngroups r2)
  | Star r1 => ngroups r1
  | Group i r1 => Nat.max i (ngroups r1)
  | _ => O
  end.

(** The captures made so far, the latest first. *)
Definition caps := list (nat * jsstring).

Fixpoint get_cap (i : nat) (c : caps) : option jsstring :=
  match c with
  | [] => None
  | (j, t) :: c' => if Nat.eqb i j then Some t else get_cap i c'
  end.

Section Matcher.
(** The whole subject string; the matcher runs on a suffix of it. *)
Variable input : jsstring.

Definition cont := jsstring -> caps -> option (jsstring * caps).

(** Greedy iteration of [step]: one more round if it succeeds, the
    continuation otherwise.  A round that consumes nothing is rejected, so
    [length s] rounds are all there can be. *)
Fixpoint star_loop (step : jsstring -> caps -> cont -> option (jsstring * caps))
    (k : cont) (n : nat) (s : jsstring) (c : caps) {struct n}
  : option (jsstring * caps) :=
  match n with
  | O => k s c
  | S n' =>
      match step s c (fun s' c' =>
                        if Nat.ltb (length s') (length s)
                        then star_loop step k n' s' c'
                        else None) with
      | Some m => Some m
      | None => k s c
      end
  end.

Fixpoint rmatch (r : regex) (s : jsstring) (c : caps) (k : cont) {struct r}
  : option (jsstring * caps) :=
  match r with
  | Eps => k s c
  | Chr p =>
      match s with
      | a :: s' => if p a then k s' c else None
      | [] => None
      end
  | Seq r1 r2 => rmatch r1 s c (fun s' c' => rmatch r2 s' c' k)
  | Alt r1 r2 =>
      match rmatch r1 s c k with
      | Some m => Some m
      | None => rmatch r2 s c k
      end
  | Star r1 => star_loop (rmatch r1) k (length s) s c
  | Group i r1 =>
      rmatch r1 s c
        (fun s' c' => k s' ((i, firstn (length s - length s') s) :: c'))
  | Bol => if Nat.eqb (length s) (length input) then k s c else None
  | Eol => match s with [] => k s c | _ :: _ => None end
  end.

(** A successful match: the text matched, the captures, the rest. *)
Record found := { matched : jsstring; captured : caps; rest : jsstring }.

(** The pattern tried at the position where [s] starts. *)
Definition match_at (r : regex) (s : jsstring) : option found :=
  match rmatch r s [] (fun s' c' => Some (s', c')) with
  | Some (s', c') =>
      Some {| matched := firstn (length s - length s') s;
              captured := c'; rest := s' |}
  | None => None
  end.

(** The leftmost match at or after the start of [s], with the text skipped
    before it. *)
Fixpoint search (r : regex) (s : jsstring) : option (jsstring * found) :=
  match match_at r s with
  | Some m => Some ([], m)
  | None =>
      match s with
      | [] => None
      | a :: s' =>
          match search r s' with
          | Some (pre, m) => Some (a :: pre, m)
          | None => None
          end
      end
  end.

(** [String.prototype.replace] with a global pattern and a callback on the
    matched text: the scan resumes where the last match ended, one code
    unit further after an empty match. *)
Fixpoint replace_from (r : regex) (f : jsstring -> jsstring) (n : nat)
    (s : jsstring) : jsstring :=
  match n with
  | O => s
  | S n' =>
      match search r s with
      | None => s
      | Some (pre, m) =>
          pre ++ f (matched m) ++
            match matched m, rest m with
            | [], [] => []
            | [], a :: s' => a :: replace_from r f n' s'
            | _ :: _, s' => replace_from r f n' s'
            end
      end
  end.
End Matcher.

Definition replace_all (r : regex) (f : jsstring -> jsstring) (s : jsstring)
  : jsstring :=
  replace_from s r f (S (length s)) s.

(** The language of a pattern, the anchors read as the empty string. *)
Inductive lang : regex -> jsstring -> Prop :=
| L_Eps : lang Eps []
| L_Chr p a : p a = true -> lang (Chr p) [a]
| L_Seq r1 r2 s1 s2 : lang r1 s1 -> lang r2 s2 -> lang (Seq r1 r2) (s1 ++ s2)
| L_AltL r1 r2 s : lang r1 s -> lang (Alt r1 r2) s
| L_AltR r1 r2 s : lang r2 s -> lang (Alt r1 r2) s
| L_StarNil r : lang (Star r) []
| L_StarCons r s1 s2 : lang r s1 -> lang (Star r) s2 -> lang (Star r) (s1 ++ s2)
| L_Group i r s : lang r s -> lang (Group i r) s
| L_Bol : lang Bol []
| L_Eol : lang Eol [].

#[local] Hint Constructors lang : core.

(* ================================================================== *)
(** * JavaScript values *)

(** Numbers are IEEE 754 values.  Arrays are dense; an object or a function
    is given by its own enumerable properties in enumeration order. *)
#[warnings="-register-all"]
Inductive value :=
| VUndef                                     (* [undefined] *)
| VNull
| VBool (b : bool)
| VNum (n : spec_float)
| VStr (s : jsstring)
| VFun (own : list (jsstring * value))
| VArr (items : list value)
| VObj (own : list (jsstring * value)).

Definition props := list (jsstring * value).

(** Induction on a value, with the property at hand for the elements of a
    sequence and for the values of a mapping. *)
Section ValueInduction.
Variable P : value -> Prop.
Hypothesis Hundef : P VUndef.
Hypothesis Hnull : P VNull.
Hypothesis Hbool : forall b, P (VBool b).
Hypothesis Hnum : forall n, P (VNum n).
Hypothesis Hstr : forall s, P (VStr s).
Hypothesis Hfun : forall own, Forall P (map snd own) -> P (VFun own).
Hypothesis Harr : forall items, Forall P items -> P (VArr items).
Hypothesis Hobj : forall own, Forall P (map snd own) -> P (VObj own).

Fixpoint value_induction (v : value) : P v :=
  let values :=
    fix values (own : list (list N * value)) : Forall P (map snd own) :=
      match own with
      | [] => Forall_nil P
      | (_, val) :: own' => Forall_cons val (value_induction val) (values own')
      end in
  match v with
  | VUndef => Hundef
  | VNull => Hnull
  | VBool b => Hbool b
  | VNum n => Hnum n
  | VStr s => Hstr s
  | VFun own => Hfun own (values own)
  | VArr items =>
      Harr ((fix elements (l : list value) : Forall P l :=
               match l with
               | [] => Forall_nil P
               | x :: l' => Forall_cons x (value_induction x) (elements l')
               end) items)
  | VObj own => Hobj own (values own)
  end.
End ValueInduction.

(** An integer as a number. *)
Definition num (z : Z) : spec_float :=
  match z with
  | Z0 => S754_zero false
  | Zpos p => S754_finite false p 0
  | Zneg p => S754_finite true p 0
  end.

(** ToBoolean: [undefined], [null], [false], [+0], [-0], [NaN] and the empty
    string are falsy. *)
Definition truthy (v : value) : bool :=
  match v with
  | VUndef | VNull => false
  | VBool b => b
  | VNum (S754_zero _) | VNum S754_nan => false
  | VNum _ => true
  | VStr [] => false
  | VStr (_ :: _) => true
  | VFun _ | VArr _ | VObj _ => true
  end.

(** [a || b] *)
Definition or_else (a b : value) : value := if truthy a then a else b.

(** The lodash type tests. *)
Definition isString (v : value) : bool := match v with VStr _ => true | _ => false end.
Definition isNumber (v : value) : bool := match v with VNum _ => true | _ => false end.
Definition isBoolean (v : value) : bool := match v with VBool _ => true | _ => false end.
Definition isNull (v : value) : bool := match v with VNull => true | _ => false end.
Definition isUndefined (v : value) : bool := match v with VUndef => true | _ => false end.
Definition isArray (v : value) : bool := match v with VArr _ => true | _ => false end.
Definition isFunction (v : value) : bool := match v with VFun _ => true | _ => false end.
Definition isObject (v : value) : bool :=
  match v with VFun _ | VArr _ | VObj _ => true | _ => false end.

(** The library's [isPrimitive]. *)
Definition isPrimitive (val : value) : bool :=
  isNumber val || isBoolean val || isString val || isNull val || isUndefined val.

(** ** Property keys *)

Fixpoint uint_digits (d : Decimal.uint) : jsstring :=
  match d with
  | Decimal.Nil => []
  | Decimal.D0 d' => 48%N :: uint_digits d'
  | Decimal.D1 d' => 49%N :: uint_digits d'
  | Decimal.D2 d' => 50%N :: uint_digits d'
  | Decimal.D3 d' => 51%N :: uint_digits d'
  | Decimal.D4 d' => 52%N :: uint_digits d'
  | Decimal.D5 d' => 53%N :: uint_digits d'
  | Decimal.D6 d' => 54%N :: uint_digits d'
  | Decimal.D7 d' => 55%N :: uint_digits d'
  | Decimal.D8 d' => 56%N :: uint_digits d'
  | Decimal.D9 d' => 57%N :: uint_digits d'
  end.

(** ToString of a non-negative integer below 10^21. *)
Definition dec (n : N) : jsstring := uint_digits (N.to_uint n).

Fixpoint dec_value (acc : N) (s : jsstring) : option N :=
  match s with
  | [] => Some acc
  | c :: s' => if is_digit c then dec_value (10 * acc + (c - 48))%N s' else None
  end.

(** An array index: the canonical decimal form of an integer below 2^32-1.
    Such keys are enumerated first, in ascending order. *)
Definition array_index (k : jsstring) : option N :=
  match k with
  | [] => None
  | _ :: _ =>
      match dec_value 0 k with
      | Some n => if jsstring_eqb (dec n) k && N.ltb n (2 ^ 32 - 1) then Some n else None
      | None => None
      end
  end.

Section Props.
Context {A : Type}.

(** [o[k]] on own properties. *)
Fixpoint obj_get (k : jsstring) (o : list (jsstring * A)) : option A :=
  match o with
  | [] => None
  | (k', v) :: o' => if jsstring_eqb k k' then Some v else obj_get k o'
  end.

Definition has_key (k : jsstring) (o : list (jsstring * A)) : bool :=
  match obj_get k o with Some _ => true | None => false end.

(** A new key [k] is enumerated before the existing key [k']. *)
Definition key_before (k k' : jsstring) : bool :=
  match array_index k, array_index k' with
  | Some i, Some j => N.ltb i j
  | Some _, None => true
  | None, _ => false
  end.

Fixpoint obj_replace (k : jsstring) (v : A) (o : list (jsstring * A)) :=
  match o with
  | [] => []
  | (k', v') :: o' =>
      if jsstring_eqb k k' then (k', v) :: o' else (k', v') :: obj_replace k v o'
  end.

Fixpoint obj_insert (k : jsstring) (v : A) (o : list (jsstring * A)) :=
  match o with
  | [] => [(k, v)]
  | (k', v') :: o' =>
      if key_before k k' then (k, v) :: o else (k', v') :: obj_insert k v o'
  end.

(** [o[k] = v]: an existing property keeps its place. *)
Definition obj_set (k : jsstring) (v : A) (o : list (jsstring * A)) :=
  if has_key k o then obj_replace k v o else obj_insert k v o.
End Props.

(** ** lodash's [_.each]

    An object whose [length] is a non-negative integer up to
    [MAX_SAFE_INTEGER] is "array-like": [_.each] visits its indices below
    [length] instead of its properties. *)

Definition MAX_SAFE_INTEGER : N := 2 ^ 53 - 1.

Definition isLength (v : value) : option N :=
  let safe n := if N.leb n MAX_SAFE_INTEGER then Some n else None in
  match v with
  | VNum (S754_zero _) => Some 0%N
  | VNum (S754_finite false m e) =>
      if Z.leb 0 e then safe (Npos m * 2 ^ Z.to_N e)%N
      else
        let d := (2 ^ Z.to_N (- e))%N in
        if N.eqb (Npos m mod d) 0 then safe (Npos m / d)%N else None
  | _ => None
  end.

Definition array_like (o : props) : option N :=
  match obj_get (str "length") o with
  | Some len => isLength len
  | None => None
  end.

Definition indices (n : N) : list N := map N.of_nat (seq 0 (N.to_nat n)).

(** The (key, value) pairs the callback receives.  For an array-like object
    the key is the index, shown here as the property key it denotes. *)
Definition each {A : Type} (undef : A) (len : option N) (o : list (jsstring * A))
  : list (jsstring * A) :=
  match len with
  | Some n =>
      map (fun i => (dec i, match obj_get (dec i) o with
                            | Some a => a
                            | None => undef
                            end)) (indices n)
  | None => o
  end.

(** A string is array-like: its code units at their indices. *)
Definition each_char (s : jsstring) : props :=
  map (fun ic => (dec (N.of_nat (fst ic)), VStr [snd ic]))
      (combine (seq 0 (length s)) s).

(** What [_.each] visits on a value; a function is walked by its own
    enumerable properties. *)
Definition each_of (v : value) : props :=
  match v with
  | VObj own => each VUndef (array_like own) own
  | VFun own => own
  | VStr s => each_char s
  | _ => []
  end.

(* ================================================================== *)
(** * [snake2camel] *)

(** [/_([a-z])/g] *)
Definition snake_pattern : regex :=
  Seq (Chr (is_char "_")) (Group 1 (Chr is_lower)).

(** [snake.replace(/_([a-z])/g, function (g) { return g[1].toUpperCase(); })];
    [g] is the whole match, two code units long. *)
Definition snake_replace (snake : jsstring) : jsstring :=
  replace_all snake_pattern (fun g => toUpperCase (char_at g 1)) snake.

(** [_snake2camel].  A truthy value that is neither a number nor a string has
    no [replace] method, and calling it throws. *)
Definition _snake2camel (snake : value) : result value :=
  if negb (truthy snake) || isNumber snake then Ok snake
  else
    match snake with
    | VStr s => Ok (VStr (snake_replace s))
    | _ => Throw TypeError
    end.

(** [_snake2camel(key)] as the property key it yields: a string key is
    converted; an index of an array-like object is a number, returned as it
    is, and a string of digits is not changed by the conversion either. *)
Definition _snake2camel_key (key : jsstring) : jsstring := snake_replace key.

Section Callback.
(** What is done with a value that is neither callable nor primitive:
    [_.isArray(val) ? _snakeArr2camel(val) : _snakeObj2camel(val)]. *)
Variable deep : value -> result value.

(** The callback of [_.each] in [_snakeObj2camel], on the object built so
    far. *)
Definition each_callback (values : props) (val : value) (key : jsstring)
  : result props :=
  if negb (isFunction val) then
    if isPrimitive val then Ok (obj_set (_snake2camel_key key) val values)
    else v <- deep val ;; Ok (obj_set (_snake2camel_key key) v values)
  else Ok values.

Fixpoint each_loop (visited : props) (values : props) : result props :=
  match visited with
  | [] => Ok values
  | (key, val) :: visited' =>
      values' <- each_callback values val key ;; each_loop visited' values'
  end.

(** The same loop on the values already passed through the callback's
    case analysis: [None] for a callable, that is skipped. *)
Definition prepared (val : value) : option (result value) :=
  if negb (isFunction val) then
    if isPrimitive val then Some (Ok val) else Some (deep val)
  else None.

Fixpoint store_loop (visited : list (jsstring * option (result value)))
    (values : props) : result props :=
  match visited with
  | [] => Ok values
  | (key, None) :: visited' => store_loop visited' values
  | (key, Some r) :: visited' =>
      v <- r ;; store_loop visited' (obj_set (_snake2camel_key key) v values)
  end.
End Callback.

(** The callback of [_.map] in [_snakeArr2camel], which ties the recursion:
    a primitive goes to [_snake2camel], an array to [_snakeArr2camel], and
    anything else to [_snakeObj2camel].  The recursion descends into the own
    properties of an object before [_.each] selects the ones it visits (a
    missing index reads as [undefined], which the callback stores);
    [camel_item_eq] below gives the equation in the form of the source. *)
Fixpoint camel_item (obj : value) : result value :=
  match obj with
  | VArr items => l <- mapM camel_item items ;; Ok (VArr l)
  | VObj own =>
      values <- store_loop
                  (each (Some (Ok VUndef)) (array_like own)
                     (map (fun kv => match kv with
                                     | (key, val) => (key, prepared camel_item val)
                                     end) own)) [] ;;
      Ok (VObj values)
  | VFun own =>
      values <- store_loop
                  (map (fun kv => match kv with
                                  | (key, val) => (key, prepared camel_item val)
                                  end) own) [] ;;
      Ok (VObj values)
  | _ => _snake2camel obj
  end.

(** [_snakeArr2camel]; an array is truthy, so the guard [!snake] never
    fires. *)
Definition _snakeArr2camel (snake : list value) : result value :=
  l <- mapM camel_item snake ;; Ok (VArr l).

(** [_snakeObj2camel] *)
Definition _snakeObj2camel (snake : value) : result value :=
  if negb (truthy snake) then Ok snake
  else values <- each_loop camel_item (each_of snake) [] ;; Ok (VObj values).

(** [snake2camel] *)
Definition snake2camel (snake : value) : result value :=
  if negb (truthy snake) then Ok snake
  else if isString snake then _snake2camel snake
  else
    match snake with
    | VArr items => _snakeArr2camel items
    | _ => if isObject snake then _snakeObj2camel snake else Ok VNull
    end.

(* ================================================================== *)
(** * [extractIPv4] *)

(** [/(\d+(?:\.(?:\d+)){3})/] *)
Definition ipv4_pattern : regex :=
  Group 1 (Seq (Plus (Chr is_digit))
               (Times 3 (Seq (Chr (is_char ".")) (Plus (Chr is_digit))))).

(** The array [String.prototype.match] returns for a pattern without the
    [g] flag: the matched text, then the captures. *)
Definition match_array (r : regex) (m : found) : list value :=
  VStr (matched m)
    :: map (fun i => match get_cap i (captured m) with
                     | Some t => VStr t
                     | None => VUndef
                     end) (seq 1 (ngroups r)).

(** [s.match(r)]; [None] is [null]. *)
Definition str_match (r : regex) (s : jsstring) : option (list value) :=
  match search s r s with
  | Some (_, m) => Some (match_array r m)
  | None => None
  end.

(** [a[i]] on an array. *)
Definition index (a : list value) (i : nat) : value := nth i a VUndef.

(** [extractIPv4]; [ip] is a string.  Indexing [null] throws. *)
Definition extractIPv4 (ip : jsstring) : result jsstring :=
  if negb (truthy (VStr ip)) then Ok ip
  else
    match str_match ipv4_pattern ip with
    | None => Throw TypeError
    | Some matches =>
        match index matches 1 with
        | VStr found1 => if negb (truthy (VStr found1)) then Ok ip else Ok found1
        | _ => Ok ip
        end
    end.

(* ================================================================== *)
(** * [Version] *)

Module Version.

(** [/^((?:\d+\.* ){1,3})\s*\((\d+)\)\s*$/i], written here with a blank
    after the first star; the pattern has no letter, so the flag [i]
    changes nothing. *)
Definition versionPattern : regex :=
  Seq Bol
    (Seq (Group 1 (Range 1 3 (Seq (Plus (Chr is_digit)) (Star (Chr (is_char "."))))))
    (Seq (Star (Chr is_space))
    (Seq (Chr (is_char "("))
    (Seq (Group 2 (Plus (Chr is_digit)))
    (Seq (Chr (is_char ")"))
    (Seq (Star (Chr is_space)) Eol)))))).

Record t := { ver : jsstring }.

(** The constructor. *)
Definition Version (ver : value) : result t :=
  if negb (isString ver) then Throw InvalidVersion
  else
    match ver with
    | VStr s => Ok {| ver := s |}
    | _ => Throw InvalidVersion
    end.

Definition toString (this : t) : jsstring := ver this.

Record parsed := { version : t; build : value }.

(** [Version.parse] *)
Definition parse (versionString : value) : result parsed :=
  let matches :=
    match versionString with
    | VStr s =>
        match str_match versionPattern s with
        | Some m => m
        | None => []
        end
    | _ => []
    end in
  v <- Version (or_else (index matches 1) (VStr [])) ;;
  Ok {| version := v; build := or_else (index matches 2) (VNum (num 0)) |}.

(** What [parse] returns when nothing matched. *)
Definition no_version : parsed :=
  {| version := {| ver := [] |}; build := VNum (num 0) |}.

Section Compare.
(** The three-way comparison of the [compare-version] package, which
is not part of the sources: negative, zero or positive. *)
Variable compareVersion : jsstring -> jsstring -> Z.

Definition lt (this : t) (ver2 : jsstring) : bool := (compareVersion (ver this) ver2 <? 0)%Z.
Definition lte (this : t) (ver2 : jsstring) : bool := (compareVersion (ver this) ver2 <=? 0)%Z.
Definition gt (this : t) (ver2 : jsstring) : bool := (compareVersion (ver this) ver2 >? 0)%Z.
Definition gte (this : t) (ver2 : jsstring) : bool := (compareVersion (ver this) ver2 >=? 0)%Z.
Definition eq (this : t) (ver2 : jsstring) : bool := (compareVersion (ver this) ver2 =? 0)%Z.
End Compare.

(** Modelled from the spec: the comparison the [compare-version] package
    performs, in the spec's words "compare numeric segments left to right;
    shorter sequences pad with zero", an unparseable segment counting as
    zero.  It serves to run the comparisons of the tests. *)
Fixpoint split_dots (cur : jsstring) (s : jsstring) : list jsstring :=
  match s with
  | [] => [rev cur]
  | c :: s' =>
      if is_char "." c then rev cur :: split_dots [] s'
      else split_dots (c :: cur) s'
  end.

Definition segment (g : jsstring) : N :=
  match dec_value 0 g with
  | Some n => n
  | None => 0%N
  end.

Fixpoint compare_segments (a b : list N) : Z :=
  match a, b with
  | x :: a', y :: b' =>
      match N.compare x y with
      | Lt => (-1)%Z
      | Gt => 1%Z
      | Eq => compare_segments a' b'
      end
  | _, _ => 0%Z
  end.

Definition compare_dotted (a b : jsstring) : Z :=
  let sa := map segment (split_dots [] a) in
  let sb := map segment (split_dots [] b) in
  let n := Nat.max (length sa) (length sb) in
  compare_segments (sa ++ repeat 0%N (n - length sa))
                   (sb ++ repeat 0%N (n - length sb)).

End Version.

(* ================================================================== *)
(** * [isNumericMap] *)

(** The strings ToNumber does not turn into [NaN]: a StringNumericLiteral
    of the language specification between optional white space, or white
    space alone. *)
Definition exponent_part : regex :=
  Seq (Chr (one_of "eE")) (Seq (Opt (Chr (one_of "+-"))) (Plus (Chr is_digit))).

Definition unsigned_decimal : regex :=
  Alt (Lit (str "Infinity"))
 (Alt (Seq (Plus (Chr is_digit))
        (Seq (Chr (is_char ".")) (Seq (Star (Chr is_digit)) (Opt exponent_part))))
 (Alt (Seq (Chr (is_char ".")) (Seq (Plus (Chr is_digit)) (Opt exponent_part)))
      (Seq (Plus (Chr is_digit)) (Opt exponent_part)))).

Definition non_decimal : regex :=
  Seq (Chr (is_char "0"))
    (Alt (Seq (Chr (one_of "bB")) (Plus (Chr (one_of "01"))))
    (Alt (Seq (Chr (one_of "oO")) (Plus (Chr (one_of "01234567"))))
         (Seq (Chr (one_of "xX")) (Plus (Chr (one_of "0123456789abcdefABCDEF")))))).

Definition numeric_string : regex :=
  Seq Bol
 (Seq (Star (Chr is_space))
 (Seq (Opt (Alt (Seq (Opt (Chr (one_of "+-"))) unsigned_decimal) non_decimal))
 (Seq (Star (Chr is_space)) Eol))).

(** [isNaN(key)] on a property key. *)
Definition isNaN (key : jsstring) : bool :=
  match match_at key numeric_string key with
  | Some _ => false
  | None => true
  end.

(** The keys [for (let key in map)] runs through. *)
Definition for_in_keys (map : value) : list jsstring :=
  match map with
  | VObj own | VFun own => List.map fst own
  | VStr s => List.map fst (each_char s)
  | VArr items => List.map dec (indices (N.of_nat (length items)))
  | _ => []
  end.

(** The body of the [for] loop, on the keys still to come; a [break]
    returns the flag as it stands. *)
Fixpoint numeric_loop (fastCheck : value) (keys : list jsstring) (counter : N)
    (isNumericMap : bool) : bool :=
  match keys with
  | [] => isNumericMap
  | key :: keys' =>
      if truthy fastCheck then
        if negb (N.eqb counter 0) then isNumericMap             (* [counter ++] *)
        else if negb (isNaN key) then true
        else numeric_loop fastCheck keys' (counter + 1) isNumericMap
      else
        if isNaN key then isNumericMap
        else numeric_loop fastCheck keys' counter isNumericMap
  end.

(** [isNumericMap] *)
Definition isNumericMap (map fastCheck : value) : bool :=
  let fastCheck := if isUndefined fastCheck then VBool true else fastCheck in
  let isNumericMap := false in
  if negb (isArray map) then numeric_loop fastCheck (for_in_keys map) 0 isNumericMap
  else isNumericMap.

(* ================================================================== *)
(** * The properties in the words of the specification *)

(** Key-style conversion: an underscore followed by a lowercase ASCII
    letter is deleted and the letter uppercased; everything else stays. *)
Fixpoint key_style (s : jsstring) : jsstring :=
  match s with
  | [] => []
  | c :: s' =>
      match s' with
      | d :: s'' =>
          if is_char "_" c && is_lower d then (d - 32)%N :: key_style s''
          else c :: key_style s'
      | [] => [c]
      end
  end.

(** The values on which the walk does not throw: no [true] (and no
    function) as an element of a sequence, at any depth. *)
Fixpoint walkable (v : value) : bool :=
  match v with
  | VBool b => negb b
  | VFun _ => false
  | VArr items => forallb walkable items
  | VObj own =>
      forallb (fun kv => match kv with
                         | (_, val) => isFunction val || isPrimitive val || walkable val
                         end) own
  | _ => true
  end.

(** The same shape class, level by level: a primitive stays a primitive of
    its type, a sequence stays a sequence of the same length with its
    elements in order, and a mapping stays a mapping whose values are
    [undefined] or come from the values of the mapping walked. *)
#[warnings="-register-all"]
Inductive alike : value -> value -> Prop :=
| alike_undef : alike VUndef VUndef
| alike_null : alike VNull VNull
| alike_bool b : alike (VBool b) (VBool b)
| alike_num n : alike (VNum n) (VNum n)
| alike_str s s' : alike (VStr s) (VStr s')
| alike_arr items items' : Forall2 alike items items' -> alike (VArr items) (VArr items')
| alike_obj own values :
    Forall (fun kv' => snd kv' = VUndef \/
                       exists val, In val (map snd own) /\ isFunction val = false /\
                                   alike val (snd kv')) values ->
    alike (VObj own) (VObj values).

(** A group of digits. *)
Definition digits (g : jsstring) : Prop :=
  g <> [] /\ Forall (fun c => is_digit c = true) g.

Fixpoint join_dots (groups : list jsstring) : jsstring :=
  match groups with
  | [] => []
  | [g] => g
  | g :: groups' => g ++ str "." ++ join_dots groups'
  end.

(** One to three dot-separated digit groups. *)
Definition dotted_version (s : jsstring) : Prop :=
  exists groups, 1 <= length groups <= 3 /\ Forall digits groups /\
                 s = join_dots groups.

(** Four dot-separated digit groups. *)
Definition dotted_quad (t : jsstring) : Prop :=
  exists groups, length groups = 4 /\ Forall digits groups /\ t = join_dots groups.

Definition has_dotted_quad (s : jsstring) : Prop :=
  exists pre t post, s = pre ++ t ++ post /\ dotted_quad t.

(* ================================================================== *)
(** * More of [String.prototype] *)

(** The rest of [s] after its longest prefix in the class [p]. *)
Fixpoint skip_while (p : jschar -> bool) (s : jsstring) : jsstring :=
  match s with
  | [] => []
  | c :: s' => if p c then skip_while p s' else s
  end.

(** The longest prefix of [s] in the class [p]. *)
Fixpoint take_while (p : jschar -> bool) (s : jsstring) : jsstring :=
  match s with
  | [] => []
  | c :: s' => if p c then c :: take_while p s' else []
  end.

(** [s.trim()] *)
Definition trim (s : jsstring) : jsstring :=
  rev (skip_while is_space (rev (skip_while is_space s))).

(** [parts.join(sep)] *)
Fixpoint join (sep : jsstring) (parts : list jsstring) : jsstring :=
  match parts with
  | [] => []
  | [part] => part
  | part :: parts' => part ++ sep ++ join sep parts'
  end.

(** [s.split(sep)] for a separator of one code unit; [cur] is the field
    being read, backwards. *)
Fixpoint split_at (sep : jschar) (cur : jsstring) (s : jsstring) : list jsstring :=
  match s with
  | [] => [rev cur]
  | c :: s' =>
      if jschar_eqb sep c then rev cur :: split_at sep [] s'
      else split_at sep (c :: cur) s'
  end.

Definition split (sep : jschar) (s : jsstring) : list jsstring := split_at sep [] s.

Fixpoint starts_with (name s : jsstring) : bool :=
  match name, s with
  | [], _ => true
  | c :: name', d :: s' => jschar_eqb c d && starts_with name' s'
  | _ :: _, [] => false
  end.

(** [s.indexOf(name) !== -1] *)
Fixpoint includes (name s : jsstring) : bool :=
  starts_with name s ||
  match s with
  | [] => false
  | _ :: s' => includes name s'
  end.

(** [s.toLowerCase()].  The letters [A-Z] are lowered; so are the only two
    code units outside ASCII whose lowercase form has an ASCII letter,
    U+0130 (to [i] and U+0307) and U+212A (to [k]).  Every other code unit
    stands for its lowercase form, which lies outside ASCII; the library
    only looks for ASCII words in the result, or lowers ASCII text. *)
Definition lower_unit (c : jschar) : jsstring :=
  if in_range 65 90 c then [c + 32]%N
  else if N.eqb c 304 then [105; 775]%N
  else if N.eqb c 8490 then [107]%N
  else [c].

Definition toLowerCase (s : jsstring) : jsstring := flat_map lower_unit s.

(** [parseInt(s)] without a radix, as the integer it denotes; [None] is
    [NaN].  Leading white space and a sign are skipped, [0x] or [0X]
    announces hexadecimal digits, and the digits are read as far as they
    go. *)
Definition digit_value (radix : N) (c : jschar) : option N :=
  let v :=
    if is_digit c then Some (c - 48)%N
    else if in_range 97 122 c then Some (c - 87)%N
    else if in_range 65 90 c then Some (c - 55)%N
    else None in
  match v with
  | Some d => if N.ltb d radix then Some d else None
  | None => None
  end.

Fixpoint read_digits (radix : N) (acc : option N) (s : jsstring) : option N :=
  match s with
  | [] => acc
  | c :: s' =>
      match digit_value radix c with
      | Some d =>
          read_digits radix
            (Some (radix * match acc with Some a => a | None => 0 end + d)%N) s'
      | None => acc
      end
  end.

Definition parseInt (s : jsstring) : option Z :=
  let s := skip_while is_space s in
  let signed :=
    match s with
    | c :: s' =>
        if is_char "-" c then (true, s')
        else if is_char "+" c then (false, s')
        else (false, s)
    | [] => (false, s)
    end in
  let radixed :=
    match snd signed with
    | z :: x :: s' =>
        if is_char "0" z && one_of "xX" x then (16%N, s') else (10%N, snd signed)
    | _ => (10%N, snd signed)
    end in
  match read_digits (fst radixed) None (snd radixed) with
  | Some n => Some (if fst signed then - Z.of_N n else Z.of_N n)%Z
  | None => None
  end.

(* ================================================================== *)
(** * More of [RegExp.prototype] *)

(** No capturing group inside. *)
Fixpoint group_free (r : regex) : bool :=
  match r with
  | Seq r1 r2 | Alt r1 r2 => group_free r1 && group_free r2
  | Star r1 => group_free r1
  | Group _ _ => false
  | _ => true
  end.

(** The text of the subject before a match. *)
Definition before_match (input : jsstring) (m : found) : jsstring :=
  firstn (length input - length (matched m) - length (rest m)) input.

Definition capture (n : N) (m : found) : jsstring :=
  match get_cap (N.to_nat n) (captured m) with
  | Some t => t
  | None => []
  end.

(** GetSubstitution: the replacement text a template stands for, with
    [$$], [$&], [$`], [$'] and the captures [$n] and [$nn] of a pattern with
    [groups] groups; a reference beyond the groups is kept as it is
    written. *)
Fixpoint substitute (groups : N) (input : jsstring) (m : found) (tpl : jsstring)
  : jsstring :=
  match tpl with
  | [] => []
  | c :: t =>
      if is_char "$" c then
        match t with
        | [] => [c]
        | d :: t' =>
            if is_char "$" d then d :: substitute groups input m t'
            else if is_char "&" d then matched m ++ substitute groups input m t'
            else if is_char "`" d then before_match input m ++ substitute groups input m t'
            else if is_char "'" d then rest m ++ substitute groups input m t'
            else if is_digit d then
              let n1 := (d - 48)%N in
              let one :=
                if N.leb 1 n1 && N.leb n1 groups
                then capture n1 m ++ substitute groups input m t'
                else c :: substitute groups input m t in
              match t' with
              | e :: t'' =>
                  let nn := (10 * n1 + (e - 48))%N in
                  if is_digit e && N.leb 1 nn && N.leb nn groups
                  then capture nn m ++ substitute groups input m t''
                  else one
              | [] => one
              end
            else c :: substitute groups input m t
        end
      else c :: substitute groups input m t
  end.

Section Replace.
Variable input : jsstring.
Variable r : regex.
(** The replacement for a match. *)
Variable f : found -> jsstring.

(** The loop of [replace] with a global pattern, as [replace_from], the
    replacement computed from the whole match. *)
Fixpoint replace_loop (n : nat) (s : jsstring) : jsstring :=
  match n with
  | O => s
  | S n' =>
      match search input r s with
      | None => s
      | Some (pre, m) =>
          pre ++ f m ++
            match matched m, rest m with
            | [], [] => []
            | [], a :: s' => a :: replace_loop n' s'
            | _ :: _, s' => replace_loop n' s'
            end
      end
  end.
End Replace.

(** [s.replace(r, tpl)] for a pattern with the flag [g]. *)
Definition replace_global (r : regex) (tpl : jsstring) (s : jsstring) : jsstring :=
  replace_loop s r (fun m => substitute (N.of_nat (ngroups r)) s m tpl)
    (S (length s)) s.

(** [s.replace(r, tpl)] for a pattern without the flag [g]: the first match
    only. *)
Definition replace_first (r : regex) (tpl : jsstring) (s : jsstring) : jsstring :=
  match search s r s with
  | None => s
  | Some (pre, m) => pre ++ substitute (N.of_nat (ngroups r)) s m tpl ++ rest m
  end.

(** [r.test(s)] for a pattern without the flags [g] and [y]. *)
Definition regex_test (r : regex) (s : jsstring) : bool :=
  match search s r s with
  | Some _ => true
  | None => false
  end.

(** A letter of a pattern with the flag [i]: the code units with the same
    canonical (uppercase) form; for an ASCII letter these are its two
    cases. *)
Definition canonical (c : jschar) : jschar := if is_lower c then (c - 32)%N else c.

Fixpoint LitI (s : jsstring) : regex :=
  match s with
  | [] => Eps
  | c :: s' => Seq (Chr (fun d => jschar_eqb (canonical c) (canonical d))) (LitI s')
  end.

(* ================================================================== *)
(** * The string helpers of the library *)

(** [\w] *)
Definition is_word (c : jschar) : bool :=
  in_range 65 90 c || in_range 97 122 c || is_digit c || is_char "_" c.

(** [/[\W\s]+/ig]; no code unit outside ASCII has a canonical form in
    ASCII, so the flag [i] does not widen the class. *)
Definition normalizeRegex : regex :=
  Plus (Chr (fun c => negb (is_word c) || is_space c)).

(** A capital of [A-Z] lowered. *)
Definition lower_ascii (c : jschar) : jschar :=
  if in_range 65 90 c then (c + 32)%N else c.

(** [normalizeString] *)
Definition normalizeString (str : jsstring) : jsstring :=
  toLowerCase (replace_global normalizeRegex [] str).

(** [pluralize], for a string [num]. *)
Definition pluralize (num unit : jsstring) : jsstring :=
  num ++ str " " ++ unit ++
  (if negb match parseInt num with
           | Some n => Z.eqb n 1
           | None => false
           end
   then str "s" else []).

(** [/([^>\r\n]?)(\r\n|\n\r|\r|\n)/g] *)
Definition nl_pattern : regex :=
  Seq (Group 1 (Opt (Chr (fun c => negb (existsb (N.eqb c) [62; 13; 10]%N)))))
      (Group 2 (Alt (Lit [13; 10]%N)
               (Alt (Lit [10; 13]%N)
               (Alt (Chr (N.eqb 13)) (Chr (N.eqb 10)))))).

(** [nl2br], on a string. *)
Definition nl2br (str0 : jsstring) : jsstring :=
  let breakTag := str "<br>" in
  replace_global nl_pattern (str "$1" ++ breakTag ++ str "$2") str0.

(** A line ending at the start of [s], and what follows it: [\r\n] and
    [\n\r] are one line ending, so is a [\r] or a [\n] not so paired. *)
Definition is_newline (c : jschar) : bool := N.eqb c 13 || N.eqb c 10.

Definition line_end (s : jsstring) : option (jsstring * jsstring) :=
  match s with
  | c :: s' =>
      if is_newline c then
        match s' with
        | d :: s'' =>
            if is_newline d && negb (N.eqb c d) then Some ([c; d], s'')
            else Some ([c], s')
        | [] => Some ([c], [])
        end
      else None
  | [] => None
  end.

(** The string with [<br>] put before each of its line endings. *)
Fixpoint insert_breaks (s : jsstring) : jsstring :=
  match s with
  | [] => []
  | c :: s' =>
      if is_newline c then
        match s' with
        | d :: s'' =>
            if is_newline d && negb (N.eqb c d)
            then str "<br>" ++ c :: d :: insert_breaks s''
            else str "<br>" ++ c :: insert_breaks s'
        | [] => str "<br>" ++ [c]
        end
      else c :: insert_breaks s'
  end.

(** The callback of [_.reduce] in [mkpath]: [/\/$/] and [/^\//]. *)
Definition trailing_slash : regex := Seq (Chr (is_char "/")) Eol.
Definition leading_slash : regex := Seq Bol (Chr (is_char "/")).

Definition join_paths (path1 path2 : jsstring) : jsstring :=
  replace_first trailing_slash [] path1 ++ str "/" ++
  replace_first leading_slash [] path2.

(** [mkpath], on its arguments; [_.reduce] without an accumulator starts
    from the first one, and gives [undefined] when there is none. *)
Definition mkpath (segs : list jsstring) : value :=
  match segs with
  | [] => VUndef
  | path :: segs' => VStr (fold_left join_paths segs' path)
  end.

(** A string without its first code unit, if that is a slash; without its
    last one, if that is a slash. *)
Definition drop_leading_slash (s : jsstring) : jsstring :=
  match s with
  | c :: s' => if is_char "/" c then s' else s
  | [] => []
  end.

Fixpoint drop_trailing_slash (s : jsstring) : jsstring :=
  match s with
  | [] => []
  | c :: s' =>
      match s' with
      | [] => if is_char "/" c then [] else [c]
      | _ :: _ => c :: drop_trailing_slash s'
      end
  end.

(** A path segment that is not empty and has no slash at either end. *)
Definition clean_segment (s : jsstring) : Prop :=
  s <> [] /\ drop_leading_slash s = s /\ drop_trailing_slash s = s.

(** The second argument of [matches]. *)
Inductive patterns :=
| OnePattern (r : regex)             (* [regex instanceof RegExp] *)
| SomePatterns (l : list regex)      (* an array of patterns *)
| NoPattern.                         (* anything else *)

(** [while (i--) { if (regex[i].test(str)) return true; }], on the
    patterns from the last to the first. *)
Fixpoint test_each (backwards : list regex) (s : jsstring) : bool :=
  match backwards with
  | [] => false
  | r :: backwards' => if regex_test r s then true else test_each backwards' s
  end.

(** [matches] *)
Definition matches (str0 : value) (regex : patterns) : bool :=
  if negb (isString str0) then false
  else
    match str0, regex with
    | VStr s, OnePattern r => regex_test r s
    | VStr s, SomePatterns l => test_each (rev l) s
    | _, _ => false
    end.

(** [s] starts with [name], the case of ASCII letters aside. *)
Fixpoint starts_with_i (name s : jsstring) : bool :=
  match name, s with
  | [], _ => true
  | c :: name', d :: s' =>
      jschar_eqb (canonical c) (canonical d) && starts_with_i name' s'
  | _ :: _, [] => false
  end.

(** [/^(American|Amex)/i] and [/X{4}$/] *)
Definition amex_pattern : regex :=
  Seq Bol (Group 1 (Alt (LitI (str "American")) (LitI (str "Amex")))).
Definition last_four : regex := Seq (Range 4 4 (Chr (is_char "X"))) Eol.

(** [formatCCLast4], on strings. *)
Definition formatCCLast4 (ccType last4 : jsstring) : jsstring :=
  let template :=
    if regex_test amex_pattern ccType then str "XXXX XXXXXX XXXXX"
    else str "XXXX XXXX XXXX XXXX" in
  replace_first last_four last4 template.

Section LatLon.
(** [sanitize.my.float] of the [sanitize] package, which is not part of
    the sources. *)
Variable float : value -> value.

End LatLon.

(* ================================================================== *)
(** * [randomString] *)

(** What [crypto.randomBytes] hands to its callback: an error, or a
    buffer. *)
Inductive drawn (B : Type) :=
| DrawError
| DrawBuffer (buf : B).
Arguments DrawError {B}.
Arguments DrawBuffer {B} buf.

(** How a call ends: [callback(err)], [callback(null, buf.toString(enc))],
    or still waiting for bytes. *)
Inductive answered (B : Type) :=
| Failed
| Answered (buf : B)
| Waiting.
Arguments Failed {B}.
Arguments Answered {B} buf.
Arguments Waiting {B}.

(** [randomString] with an integer [opts.numTries] ([0] when it is absent),
    on the draws [crypto.randomBytes] will make, one per call.  The options
    object is shared between the calls, so the count left by one call is the
    one the retry starts from. *)
Fixpoint randomString {B : Type} (numTries : Z) (draws : list (drawn B))
  : answered B :=
  match draws with
  | [] => Waiting
  | draw :: draws' =>
      let numTries := if Z.eqb numTries 0 then 3%Z else numTries in
      let err := match draw with DrawError => true | DrawBuffer _ => false end in
      if err || Z.eqb numTries 3 then
        if Z.ltb 0 numTries then randomString (numTries - 1) draws'
        else Failed
      else
        match draw with
        | DrawBuffer buf => Answered buf
        | DrawError => Failed
        end
  end.

(* ================================================================== *)
(** * [Device] *)

Module Device.

Definition TYPE_UNKNOWN : N := 0.
Definition TYPE_IPHONE : N := 1.
Definition TYPE_IPAD : N := 2.
Definition TYPE_ANDROID : N := 3.
Definition TYPE_WEB : N := 4.

(** [exports.deviceTypes], filled in the order of the source; the keys are
    array indices, so they are enumerated in ascending order. *)
Definition deviceTypes : list (jsstring * jsstring) :=
  obj_set (dec TYPE_WEB) (str "web")
 (obj_set (dec TYPE_IPAD) (str "ipad")
 (obj_set (dec TYPE_ANDROID) (str "android")
 (obj_set (dec TYPE_IPHONE) (str "iphone") []))).

(** The [for ... in] loop over the device types. *)
Fixpoint first_type (types : list (jsstring * jsstring)) (platformString : jsstring)
  : option Z :=
  match types with
  | [] => Some (Z.of_N TYPE_UNKNOWN)
  | (type, name) :: types' =>
      if includes name (toLowerCase platformString) then parseInt type
      else first_type types' platformString
  end.

(** The type whose name comes first in the order [iphone], [ipad],
    [android], [web] among those a lowered platform string holds. *)
Definition type_of (lowered : jsstring) : N :=
  if includes (str "iphone") lowered then TYPE_IPHONE
  else if includes (str "ipad") lowered then TYPE_IPAD
  else if includes (str "android") lowered then TYPE_ANDROID
  else if includes (str "web") lowered then TYPE_WEB
  else TYPE_UNKNOWN.

(** [getType], on its arguments, all strings; [None] is [NaN]. *)
Definition getType (arguments : list jsstring) : option Z :=
  if Nat.eqb (length arguments) 0 then Some (Z.of_N TYPE_UNKNOWN)
  else
    let platformString := trim (join (str " ") arguments) in
    if negb (truthy (VStr platformString)) then Some (Z.of_N TYPE_UNKNOWN)
    else first_type deviceTypes platformString.

End Device.

(* ================================================================== *)
(** * The parts of the version pattern *)

(** [(?:\d+\.* )], without the blank: a digit group and the dots behind
    it. *)
Definition version_piece : regex :=
  Seq (Plus (Chr is_digit)) (Star (Chr (is_char "."))).

(** What follows the first group: [\s*\((\d+)\)\s*$]. *)
Definition version_tail : regex :=
  Seq (Star (Chr is_space))
 (Seq (Chr (is_char "("))
 (Seq (Group 2 (Plus (Chr is_digit)))
 (Seq (Chr (is_char ")"))
 (Seq (Star (Chr is_space)) Eol)))).

(** White space only. *)
Definition spaces (w : jsstring) : Prop := Forall (fun c => is_space c = true) w.

(** One to three digit groups, each with any number of dots behind it. *)
Definition version_text (v : jsstring) : Prop :=
  exists pieces : list (jsstring * jsstring),
    1 <= length pieces <= 3 /\
    Forall (fun gd => digits (fst gd) /\
                      Forall (fun c => is_char "." c = true) (snd gd)) pieces /\
    v = concat (map (fun gd => fst gd ++ snd gd) pieces).

(** [t] does not start with a code unit of the class [p]. *)
Definition no_head (p : jschar -> bool) (t : jsstring) : Prop :=
  match t with
  | [] => True
  | a :: _ => p a = false
  end.

(* ================================================================== *)
(** * Strings and the result monad *)

Lemma jsstring_eqb_eq (a b : jsstring) : jsstring_eqb a b = true <-> a = b.
Proof.
  revert b; induction a as [|x a IH]; intros [|y b]; simpl; split;
    try congruence; try discriminate.
  - intros H. apply andb_true_iff in H as [Hx Ha].
    apply N.eqb_eq in Hx. apply IH in Ha. congruence.
  - intros H. injection H as -> ->. apply andb_true_iff. split.
    + apply N.eqb_refl.
    + now apply IH.
Qed.

Lemma jsstring_eqb_refl (a : jsstring) : jsstring_eqb a a = true.
Proof. now apply jsstring_eqb_eq. Qed.

Lemma jsstring_eqb_neq (a b : jsstring) : jsstring_eqb a b = false <-> a <> b.
Proof.
  split.
  - intros H E. apply jsstring_eqb_eq in E. congruence.
  - intros H. destruct (jsstring_eqb a b) eqn:E; [|reflexivity].
    apply jsstring_eqb_eq in E. contradiction.
Qed.

(** The text consumed between two positions of the subject. *)
Lemma firstn_consumed {A} (p s : list A) :
  firstn (length (p ++ s) - length s) (p ++ s) = p.
Proof.
  rewrite length_app, Nat.add_sub, firstn_app, Nat.sub_diag, firstn_all.
  simpl. apply app_nil_r.
Qed.

Lemma mapM_length {A B} (f : A -> result B) (l : list A) (l' : list B) :
  mapM f l = Ok l' -> length l' = length l.
Proof.
  revert l'; induction l as [|x l IH]; simpl; intros l' H.
  - now inversion H.
  - destruct (f x) as [y|]; simpl in H; [|discriminate].
    destruct (mapM f l) as [ys|]; simpl in H; [|discriminate].
    inversion H; subst. simpl. f_equal. now apply IH.
Qed.

(* ================================================================== *)
(** * The matcher is sound for the language of a pattern *)

Section MatcherSound.
Variable input : jsstring.

(** A match found by the matcher consumes a word of the language and
    hands the rest to its continuation. *)
Lemma rmatch_sound (r : regex) :
  forall s c k m, rmatch input r s c k = Some m ->
  exists s1 s2 c', s = s1 ++ s2 /\ lang r s1 /\ k s2 c' = Some m.
Proof.
  induction r as [|p|r1 IH1 r2 IH2|r1 IH1 r2 IH2|r IH|i r IH| |];
    intros s c k m H; simpl in H.
  - exists [], s, c. auto.
  - destruct s as [|a s']; [discriminate|].
    destruct (p a) eqn:Hp; [|discriminate].
    exists [a], s', c. auto.
  - apply IH1 in H as (s1 & s2 & c1 & -> & L1 & H).
    apply IH2 in H as (t1 & t2 & c2 & -> & L2 & H).
    exists (s1 ++ t1), t2, c2. rewrite app_assoc. auto.
  - destruct (rmatch input r1 s c k) eqn:E.
    + inversion H; subst.
      apply IH1 in E as (s1 & s2 & c1 & -> & L1 & E).
      exists s1, s2, c1. auto.
    + apply IH2 in H as (s1 & s2 & c1 & -> & L1 & H).
      exists s1, s2, c1. auto.
  - revert H. generalize (length s) at 1. intros n. revert s c.
    induction n as [|n IHn]; intros s c H; simpl in H.
    + exists [], s, c. auto.
    + match type of H with
      | match ?e with _ => _ end = _ => destruct e eqn:E
      end.
      * inversion H; subst.
        apply IH in E as (s1 & s2 & c1 & -> & L1 & E).
        destruct (Nat.ltb (length s2) (length (s1 ++ s2))); [|discriminate].
        apply IHn in E as (t1 & t2 & c2 & -> & L2 & E).
        exists (s1 ++ t1), t2, c2. rewrite app_assoc. auto.
      * exists [], s, c. auto.
  - apply IH in H as (s1 & s2 & c1 & -> & L1 & H).
    eexists s1, s2, _. eauto.
  - destruct (Nat.eqb (length s) (length input)); [|discriminate].
    exists [], s, c. auto.
  - destruct s; [|discriminate]. exists [], [], c. auto.
Qed.

Lemma match_at_sound (r : regex) (s : jsstring) (m : found) :
  match_at input r s = Some m ->
  s = matched m ++ rest m /\ lang r (matched m).
Proof.
  unfold match_at. intros H.
  destruct (rmatch input r s [] (fun s' c' => Some (s', c'))) as [[s' c']|] eqn:E;
    [|discriminate].
  apply rmatch_sound in E as (s1 & s2 & c1 & -> & L & E).
  inversion E; subst. inversion H; subst; simpl.
  rewrite firstn_consumed. auto.
Qed.

Lemma search_sound (r : regex) (s pre : jsstring) (m : found) :
  search input r s = Some (pre, m) ->
  s = pre ++ matched m ++ rest m /\ lang r (matched m).
Proof.
  revert pre m; induction s as [|a s IH]; intros pre m H; simpl in H.
  - destruct (match_at input r []) eqn:E; [|discriminate].
    inversion H; subst. now apply match_at_sound in E.
  - destruct (match_at input r (a :: s)) eqn:E.
    + inversion H; subst. now apply match_at_sound in E.
    + destruct (search input r s) as [[pre' m']|]; [|discriminate].
      inversion H; subst. destruct (IH _ _ eq_refl) as [-> L]. auto.
Qed.
End MatcherSound.

(* ================================================================== *)
(** * Key-style conversion *)

Section SnakeReplace.
Variable input : jsstring.

Let upper_second (g : jsstring) : jsstring := toUpperCase (char_at g 1).

Lemma search_unfold (r : regex) (s : jsstring) :
  search input r s =
  match match_at input r s with
  | Some m => Some ([], m)
  | None =>
      match s with
      | [] => None
      | a :: s' =>
          match search input r s' with
          | Some (pre, m) => Some (a :: pre, m)
          | None => None
          end
      end
  end.
Proof. destruct s; reflexivity. Qed.

(** The pattern matches exactly at an underscore before a lowercase
    letter. *)
Lemma match_at_snake (s : jsstring) :
  match_at input snake_pattern s =
  match s with
  | c :: d :: s'' =>
      if is_char "_" c && is_lower d
      then Some {| matched := [c; d]; captured := [(1, [d])]; rest := s'' |}
      else None
  | _ => None
  end.
Proof.
  destruct s as [|c [|d s'']]; unfold match_at, snake_pattern; cbn [rmatch].
  - reflexivity.
  - now destruct (is_char "_" c).
  - destruct (is_char "_" c); [|reflexivity].
    destruct (is_lower d); [|reflexivity]. cbn [andb].
    pose proof (firstn_consumed [c; d] s'') as E2.
    pose proof (firstn_consumed [d] s'') as E1.
    cbn [app] in E1, E2. now rewrite E1, E2.
Qed.

Lemma replace_snake (k : nat) :
  forall n s, length s <= k -> length s < n ->
  replace_from input snake_pattern upper_second n s = key_style s.
Proof.
  induction k as [|k IH]; intros n s Hk Hn.
  - destruct s; [|simpl in Hk; lia]. destruct n; [lia|]. reflexivity.
  - destruct n as [|n]; [lia|].
    destruct s as [|c [|d s'']].
    + reflexivity.
    + simpl. rewrite !match_at_snake. reflexivity.
    + assert (IHtail : replace_from input snake_pattern upper_second (S n) (d :: s'')
                       = key_style (d :: s'')).
      { apply IH; simpl in *; lia. }
      assert (IHrest : n > length s'' ->
                replace_from input snake_pattern upper_second n s'' = key_style s'').
      { intros. apply IH; simpl in *; lia. }
      change (key_style (c :: d :: s'')) with
        (if is_char "_" c && is_lower d then (d - 32)%N :: key_style s''
         else c :: key_style (d :: s'')).
      rewrite <- IHtail.
      cbn [replace_from]. rewrite (search_unfold _ (c :: d :: s'')).
      rewrite match_at_snake.
      destruct (is_char "_" c && is_lower d) eqn:Hc.
      * apply andb_true_iff in Hc as [_ Hd]. cbn [matched rest app].
        unfold upper_second, char_at, toUpperCase; cbn [skipn firstn map].
        rewrite Hd. cbn [app]. f_equal. apply IHrest. simpl in Hn. lia.
      * destruct (search input snake_pattern (d :: s'')) as [[pre m]|];
          reflexivity.
Qed.
End SnakeReplace.

Lemma snake_replace_key_style (s : jsstring) : snake_replace s = key_style s.
Proof.
  unfold snake_replace, replace_all.
  apply (replace_snake s (k := length s)); lia.
Qed.

(** A key without an underscore, such as an index, is not changed. *)
Lemma key_style_no_underscore (s : jsstring) :
  existsb (is_char "_") s = false -> key_style s = s.
Proof.
  induction s as [|c s IH]; [reflexivity|].
  cbn [existsb]. intros H. apply orb_false_iff in H as [Hc Hs].
  destruct s as [|d s']; [reflexivity|].
  change (key_style (c :: d :: s')) with
    (if is_char "_" c && is_lower d then (d - 32)%N :: key_style s'
     else c :: key_style (d :: s')).
  rewrite Hc. cbn [andb]. now rewrite (IH Hs).
Qed.

Lemma dec_no_underscore (n : N) : existsb (is_char "_") (dec n) = false.
Proof.
  unfold dec. induction (N.to_uint n); cbn [uint_digits existsb];
    try reflexivity; now rewrite IHu.
Qed.

Lemma key_style_index (n : N) : _snake2camel_key (dec n) = dec n.
Proof.
  unfold _snake2camel_key. rewrite snake_replace_key_style.
  apply key_style_no_underscore, dec_no_underscore.
Qed.

Lemma _snake2camel_string (s : jsstring) :
  _snake2camel (VStr s) = Ok (VStr (key_style s)).
Proof.
  destruct s as [|c s]; [reflexivity|].
  unfold _snake2camel; cbn [truthy negb isNumber orb].
  now rewrite snake_replace_key_style.
Qed.

(** C2.  A string given to [snake2camel], and a mapping key met while
    walking, goes through key-style conversion: each underscore that stands
    immediately before a lowercase ASCII letter is deleted and that letter
    uppercased, every other code unit is left as it is; a number given to
    the conversion comes back unchanged, not turned into a string. *)
Theorem key_style_conversion :
  (forall s, snake2camel (VStr s) = Ok (VStr (key_style s))) /\
  (forall key, _snake2camel_key key = key_style key) /\
  (forall s, _snake2camel (VStr s) = Ok (VStr (key_style s))) /\
  (forall n, _snake2camel (VNum n) = Ok (VNum n)).
Proof.
  repeat split.
  - intros [|c s]; [reflexivity|]. unfold snake2camel; cbn [truthy negb isString].
    apply _snake2camel_string.
  - intros key. apply snake_replace_key_style.
  - apply _snake2camel_string.
  - intros n. unfold _snake2camel. cbn [isNumber]. now rewrite orb_true_r.
Qed.

(** The conversion on the tests' key. *)
Example snake2camel_my_key_name :
  snake2camel (VStr (str "my_key_name")) = Ok (VStr (str "myKeyName")).
Proof. reflexivity. Qed.

(* ================================================================== *)
(** * Objects *)

Section PropsFacts.
Context {A : Type}.
Implicit Types (o : list (jsstring * A)) (k : jsstring) (v : A).

Lemma obj_get_replace k' k v o :
  obj_get k' (obj_replace k v o) =
  if jsstring_eqb k' k then option_map (fun _ => v) (obj_get k o) else obj_get k' o.
Proof.
  induction o as [|[k1 v1] o IH]; simpl.
  - now destruct (jsstring_eqb k' k).
  - destruct (jsstring_eqb k k1) eqn:E1; simpl.
    + apply jsstring_eqb_eq in E1; subst k1.
      now destruct (jsstring_eqb k' k).
    + rewrite IH. destruct (jsstring_eqb k' k) eqn:E2; [|reflexivity].
      apply jsstring_eqb_eq in E2; subst k'. now rewrite E1.
Qed.

Lemma obj_get_insert k' k v o :
  obj_get k o = None ->
  obj_get k' (obj_insert k v o) =
  if jsstring_eqb k' k then Some v else obj_get k' o.
Proof.
  induction o as [|[k1 v1] o IH]; simpl; intros Hk.
  - reflexivity.
  - destruct (jsstring_eqb k k1) eqn:E1; [discriminate|].
    destruct (key_before k k1); simpl.
    + reflexivity.
    + rewrite (IH Hk). destruct (jsstring_eqb k' k) eqn:E2; [|reflexivity].
      apply jsstring_eqb_eq in E2; subst k'. now rewrite E1.
Qed.

(** Reading after an assignment. *)
Lemma obj_get_set k' k v o :
  obj_get k' (obj_set k v o) =
  if jsstring_eqb k' k then Some v else obj_get k' o.
Proof.
  unfold obj_set, has_key. destruct (obj_get k o) eqn:E.
  - rewrite obj_get_replace, E. reflexivity.
  - now apply obj_get_insert.
Qed.

Lemma has_key_set k' k v o :
  has_key k' (obj_set k v o) = jsstring_eqb k' k || has_key k' o.
Proof.
  unfold has_key at 1. rewrite obj_get_set.
  now destruct (jsstring_eqb k' k).
Qed.

Lemma obj_get_In k v o : obj_get k o = Some v -> In (k, v) o.
Proof.
  induction o as [|[k1 v1] o IH]; simpl; [discriminate|].
  destruct (jsstring_eqb k k1) eqn:E.
  - apply jsstring_eqb_eq in E. intros H; inversion H; subst. now left.
  - intros H. right. now apply IH.
Qed.
End PropsFacts.

(* ================================================================== *)
(** * The walk over arrays and objects *)

Section Walk.
Variable deep : value -> result value.

Let prepare (kv : jsstring * value) : jsstring * option (result value) :=
  match kv with (key, val) => (key, prepared deep val) end.

Lemma store_loop_map (visited values : props) :
  store_loop (map prepare visited) values = each_loop deep visited values.
Proof.
  revert values; induction visited as [|[key val] visited IH]; intros values.
  - reflexivity.
  - cbn [map prepare store_loop each_loop].
    unfold prepared, each_callback.
    destruct (isFunction val); cbn [negb]; [apply IH|].
    destruct (isPrimitive val); cbn [bind]; [apply IH|].
    destruct (deep val); cbn [bind]; [apply IH|reflexivity].
Qed.

Lemma obj_get_prepare (k : jsstring) (own : props) :
  obj_get k (map prepare own) = option_map (prepared deep) (obj_get k own).
Proof.
  induction own as [|[k1 v1] own IH]; [reflexivity|].
  cbn [map prepare obj_get]. now destruct (jsstring_eqb k k1).
Qed.

Lemma each_prepare (len : option N) (own : props) :
  each (Some (Ok VUndef)) len (map prepare own) = map prepare (each VUndef len own).
Proof.
  destruct len as [n|]; [|reflexivity].
  unfold each. rewrite map_map. apply map_ext. intros i.
  rewrite obj_get_prepare. now destruct (obj_get (dec i) own).
Qed.

Lemma each_loop_app (a b values : props) :
  each_loop deep (a ++ b) values =
  values' <- each_loop deep a values ;; each_loop deep b values'.
Proof.
  revert values; induction a as [|[key val] a IH]; intros values.
  - reflexivity.
  - cbn [app each_loop].
    destruct (each_callback deep values val key); cbn [bind]; [apply IH|reflexivity].
Qed.

(** What one round of the callback leaves behind. *)
Lemma each_callback_inv (values values' : props) (val : value) (key : jsstring) :
  each_callback deep values val key = Ok values' ->
  (isFunction val = true /\ values' = values) \/
  (isFunction val = false /\
   exists v, values' = obj_set (_snake2camel_key key) v values /\
             (isPrimitive val = true -> v = val) /\
             (isPrimitive val = false -> deep val = Ok v)).
Proof.
  unfold each_callback. destruct (isFunction val); cbn [negb].
  - intros H; inversion H. now left.
  - right. split; [reflexivity|]. destruct (isPrimitive val).
    + inversion H. exists val. repeat split; auto. discriminate.
    + destruct (deep val) as [v|]; [|discriminate]. inversion H.
      exists v. repeat split; auto. discriminate.
Qed.

(** The keys of the object built: those it had, and the converted keys of
    the entries visited whose value is not callable. *)
Lemma each_loop_keys (visited : props) :
  forall values values', each_loop deep visited values = Ok values' ->
  forall k, has_key k values' = true <->
            (has_key k values = true \/
             exists key val, In (key, val) visited /\ isFunction val = false /\
                             _snake2camel_key key = k).
Proof.
  induction visited as [|[key val] visited IH]; intros values values' H k.
  - inversion H; subst. split; [auto|]. intros [?|(? & ? & [] & _)]; auto.
  - cbn [each_loop] in H.
    destruct (each_callback deep values val key) as [values1|] eqn:E;
      [|discriminate].
    cbn [bind] in H. rewrite (IH _ _ H k).
    apply each_callback_inv in E as [[Hf ->]|[Hf (v & -> & _)]].
    + split.
      * intros [?|(key' & val' & Hin & ? & ?)]; [auto|].
        right. exists key', val'. simpl; auto.
      * intros [?|(key' & val' & [Heq|Hin] & Hnf & ?)]; [auto| |].
        -- inversion Heq; subst. congruence.
        -- right. exists key', val'. auto.
    + rewrite has_key_set. split.
      * intros [Hk|(key' & val' & Hin & ? & ?)].
        -- apply orb_true_iff in Hk as [Hk|Hk]; [|auto].
           apply jsstring_eqb_eq in Hk. right. exists key, val. simpl; auto.
        -- right. exists key', val'. simpl; auto.
      * intros [Hk|(key' & val' & [Heq|Hin] & Hnf & Hk)].
        -- left. rewrite Hk. apply orb_true_r.
        -- inversion Heq; subst. left. now rewrite jsstring_eqb_refl.
        -- right. exists key', val'. auto.
Qed.

(** A key that no later entry converts to keeps its value. *)
Lemma each_loop_untouched (visited : props) (k : jsstring) :
  (forall key val, In (key, val) visited -> isFunction val = false ->
                   _snake2camel_key key <> k) ->
  forall values values', each_loop deep visited values = Ok values' ->
  obj_get k values' = obj_get k values.
Proof.
  induction visited as [|[key val] visited IH]; intros Hno values values' H.
  - now inversion H.
  - cbn [each_loop] in H.
    destruct (each_callback deep values val key) as [values1|] eqn:E;
      [|discriminate].
    cbn [bind] in H. rewrite (IH (fun key' val' Hin => Hno key' val' (or_intror Hin)) _ _ H).
    apply each_callback_inv in E as [[Hf ->]|[Hf (v & -> & _)]]; [reflexivity|].
    rewrite obj_get_set.
    destruct (jsstring_eqb k (_snake2camel_key key)) eqn:Ek; [|reflexivity].
    apply jsstring_eqb_eq in Ek. exfalso.
    apply (Hno key val); simpl; auto.
Qed.

(** The value of the last entry that converts to a key is the one stored,
    a primitive as it is. *)
Lemma each_loop_last (before after : props) (key : jsstring) (val : value) :
  isPrimitive val = true ->
  (forall key' val', In (key', val') after -> isFunction val' = false ->
                     _snake2camel_key key' <> _snake2camel_key key) ->
  forall values values',
  each_loop deep (before ++ (key, val) :: after) values = Ok values' ->
  obj_get (_snake2camel_key key) values' = Some val.
Proof.
  intros Hp Hno values values' H. rewrite each_loop_app in H.
  destruct (each_loop deep before values) as [values0|]; [|discriminate].
  cbn [bind each_loop] in H.
  destruct (each_callback deep values0 val key) as [values1|] eqn:E;
    [|discriminate].
  cbn [bind] in H.
  rewrite (@each_loop_untouched after (_snake2camel_key key) Hno _ _ H).
  apply each_callback_inv in E as [[Hf _]|[_ (v & -> & Hv & _)]].
  - destruct val; discriminate.
  - rewrite obj_get_set, jsstring_eqb_refl. now rewrite (Hv Hp).
Qed.
End Walk.

(** The callback of [_.map], in the form of the source. *)
Lemma camel_item_eq (obj : value) :
  camel_item obj =
  if isPrimitive obj then _snake2camel obj
  else if isArray obj then
         match obj with VArr items => _snakeArr2camel items | _ => Ok obj end
       else _snakeObj2camel obj.
Proof.
  destruct obj as [| | b | n | s | own | items | own]; try reflexivity.
  - cbn [camel_item isPrimitive isNumber isBoolean isString isNull isUndefined
         orb isArray].
    unfold _snakeObj2camel. cbn [truthy negb each_of].
    now rewrite (store_loop_map camel_item).
  - cbn [camel_item isPrimitive isNumber isBoolean isString isNull isUndefined
         orb isArray].
    unfold _snakeObj2camel. cbn [truthy negb each_of].
    now rewrite (each_prepare camel_item), (store_loop_map camel_item).
Qed.

(* ================================================================== *)
(** * [snake2camel] on mappings *)

Lemma snake2camel_VObj (own : props) :
  snake2camel (VObj own) =
  values <- each_loop camel_item (each VUndef (array_like own) own) [] ;;
  Ok (VObj values).
Proof. reflexivity. Qed.

(** Two keys that convert to the same key: the first entry's value is
    lost. *)
Lemma mapping_collision_counterexample :
  ~ (forall own : props, exists values,
       snake2camel (VObj own) = Ok (VObj values) /\
       (forall k, has_key k values = true <->
                  exists key val, In (key, val) own /\ isFunction val = false /\
                                  key_style key = k) /\
       (forall key val, In (key, val) own -> isPrimitive val = true ->
                        obj_get (key_style key) values = Some val)).
Proof.
  intros H.
  destruct (H [(str "a_b", VNum (num 1)); (str "aB", VNum (num 2))])
    as (values & Hr & _ & Hv).
  vm_compute in Hr. inversion Hr; subst values.
  specialize (Hv (str "a_b") (VNum (num 1)) (or_introl eq_refl) eq_refl).
  vm_compute in Hv. discriminate.
Qed.

(** C3, amended.  For a mapping that is not array-like and on which
    [snake2camel] returns, the result is a mapping whose keys are exactly
    the converted keys of the entries whose value is not callable (a
    callable entry leaves no key behind), and under the converted key of an
    entry with a primitive value stands that very value, unless a later
    entry that is not callable converts to the same key. *)
Theorem camel_mapping (own : props) (r : value) :
  array_like own = None ->
  snake2camel (VObj own) = Ok r ->
  exists values, r = VObj values /\
    (forall k, has_key k values = true <->
               exists key val, In (key, val) own /\ isFunction val = false /\
                               key_style key = k) /\
    (forall before key val after,
       own = before ++ (key, val) :: after ->
       isPrimitive val = true ->
       (forall key' val', In (key', val') after -> isFunction val' = false ->
                          key_style key' <> key_style key) ->
       obj_get (key_style key) values = Some val).
Proof.
  intros Hlen H. rewrite snake2camel_VObj, Hlen in H. cbn [each] in H.
  destruct (each_loop camel_item own []) as [values|] eqn:E; [|discriminate].
  inversion H; subst r. exists values. split; [reflexivity|]. split.
  - intros k. rewrite (@each_loop_keys camel_item own [] values E k).
    unfold _snake2camel_key.
    split.
    + intros [Hk|(key & val & Hin & Hf & Hk)]; [discriminate|].
      exists key, val. now rewrite <- snake_replace_key_style.
    + intros (key & val & Hin & Hf & Hk). right.
      exists key, val. now rewrite snake_replace_key_style.
  - intros before key val after -> Hp Hno.
    rewrite <- !snake_replace_key_style.
    apply (@each_loop_last camel_item before after key val Hp) with (values := []);
      [|exact E].
    intros key' val' Hin Hf. unfold _snake2camel_key.
    rewrite !snake_replace_key_style. exact (Hno key' val' Hin Hf).
Qed.

(** The mapping of the tests: the callable entry is dropped. *)
Lemma camel_mapping_witness :
  let own := [(str "key_my", VFun []); (str "my_key_name2", VNum (num 234));
              (str "my_key_name3", VStr (str "asdf"))] in
  let r := VObj [(str "myKeyName2", VNum (num 234));
                 (str "myKeyName3", VStr (str "asdf"))] in
  array_like own = None /\ snake2camel (VObj own) = Ok r /\
  exists values, r = VObj values /\
    (forall k, has_key k values = true <->
               exists key val, In (key, val) own /\ isFunction val = false /\
                               key_style key = k) /\
    (forall before key val after,
       own = before ++ (key, val) :: after ->
       isPrimitive val = true ->
       (forall key' val', In (key', val') after -> isFunction val' = false ->
                          key_style key' <> key_style key) ->
       obj_get (key_style key) values = Some val).
Proof.
  intros own r. split; [reflexivity|]. split; [reflexivity|].
  apply (camel_mapping own (r := r)); reflexivity.
Defined.

(** A mapping of primitives and callables only never throws. *)
Lemma each_loop_flat (deep : value -> result value) (visited : props) :
  Forall (fun kv => isFunction (snd kv) = true \/ isPrimitive (snd kv) = true)
         visited ->
  forall values, exists values', each_loop deep visited values = Ok values'.
Proof.
  induction 1 as [|[key val] visited Hv _ IH]; intros values.
  - now exists values.
  - cbn [each_loop]. unfold each_callback. simpl in Hv.
    destruct (isFunction val) eqn:Hf; cbn [negb bind]; [apply IH|].
    destruct Hv as [Hv|Hv]; [discriminate|]. rewrite Hv. cbn [bind]. apply IH.
Qed.

Lemma camel_flat_mapping (own : props) :
  Forall (fun kv => isFunction (snd kv) = true \/ isPrimitive (snd kv) = true) own ->
  exists values, snake2camel (VObj own) = Ok (VObj values).
Proof.
  intros Hflat. rewrite snake2camel_VObj.
  destruct (each_loop_flat camel_item (visited := each VUndef (array_like own) own))
    with (values := @nil (jsstring * value)) as [values E].
  - destruct (array_like own) as [n|]; [|exact Hflat].
    unfold each. apply Forall_forall. intros [k v] Hin.
    apply in_map_iff in Hin as (i & Heq & _). inversion Heq; subst. simpl.
    destruct (obj_get (dec i) own) as [a|] eqn:Eg; [|now right].
    apply obj_get_In in Eg.
    apply (proj1 (Forall_forall _ own) Hflat (dec i, a) Eg).
  - exists values. now rewrite E.
Qed.

(** An array-like mapping is walked by its indices, not by its keys. *)
Example camel_array_like :
  snake2camel (VObj [(str "a_b", VNum (num 1)); (str "length", VNum (num 1))])
  = Ok (VObj [(str "0", VUndef)]).
Proof. reflexivity. Qed.

(* ================================================================== *)
(** * [snake2camel] on sequences *)

(** C4.  The walk over the sequence [[true]] ends in a TypeError: [true] is
    a primitive, it is handed to [_snake2camel], is neither falsy nor a
    number, and has no [replace] method. *)
Theorem camel_sequence_of_true_throws :
  snake2camel (VArr [VBool true]) = Throw TypeError.
Proof. reflexivity. Qed.

(** When [snake2camel] returns on a sequence, it returns a sequence of the
    same length. *)
Lemma camel_sequence_length (items : list value) (r : value) :
  snake2camel (VArr items) = Ok r ->
  exists l, r = VArr l /\ length l = length items.
Proof.
  unfold snake2camel; cbn [truthy negb isString]. unfold _snakeArr2camel.
  destruct (mapM camel_item items) as [l|] eqn:E; [|discriminate].
  intros H; inversion H. exists l. split; [reflexivity|].
  now apply mapM_length in E.
Qed.

(** The sequences of the tests are copied. *)
Example camel_sequence_tests :
  snake2camel (VArr [VStr (str "abcd"); VStr (str "efgh")])
    = Ok (VArr [VStr (str "abcd"); VStr (str "efgh")]) /\
  snake2camel (VArr [VNull]) = Ok (VArr [VNull]) /\
  snake2camel (VArr [VUndef]) = Ok (VArr [VUndef]) /\
  snake2camel (VObj [(str "my_key", VArr [VUndef])])
    = Ok (VObj [(str "myKey", VArr [VUndef])]).
Proof. repeat split. Qed.

(* ================================================================== *)
(** * [snake2camel] at the root *)

(** C5.  A falsy root value, [0], [false], the empty string, [null] or
    [undefined], is returned unchanged. *)
Theorem falsy_root_unchanged :
  (forall v, truthy v = false -> snake2camel v = Ok v) /\
  snake2camel (VNum (num 0)) = Ok (VNum (num 0)) /\
  snake2camel (VBool false) = Ok (VBool false) /\
  snake2camel (VStr []) = Ok (VStr []) /\
  snake2camel VNull = Ok VNull /\
  snake2camel VUndef = Ok VUndef.
Proof.
  repeat split. intros v Hv. unfold snake2camel. now rewrite Hv.
Qed.

Lemma falsy_root_unchanged_witness :
  truthy (VNum S754_nan) = false /\ snake2camel (VNum S754_nan) = Ok (VNum S754_nan).
Proof.
  split; [reflexivity|]. apply (proj1 falsy_root_unchanged). reflexivity.
Defined.

(** The falsy values are the ones listed. *)
Lemma falsy_values (v : value) :
  truthy v = false <->
  v = VUndef \/ v = VNull \/ v = VBool false \/ v = VStr [] \/
  (exists s, v = VNum (S754_zero s)) \/ v = VNum S754_nan.
Proof.
  split.
  - destruct v as [| | [|] | [s| | |] | [|] | | |]; simpl; try discriminate;
      intros _; eauto 10.
  - intros [->|[->|[->|[->|[[s ->]| ->]]]]]; reflexivity.
Qed.

(** A truthy number or [true] at the root yields [null]. *)
Lemma truthy_primitive_root_null (v : value) :
  truthy v = true -> isNumber v = true \/ isBoolean v = true ->
  snake2camel v = Ok VNull.
Proof.
  intros Ht Hp. unfold snake2camel. rewrite Ht. cbn [negb].
  destruct v; destruct Hp; try discriminate; reflexivity.
Qed.

(** C10.  [true] at the root yields [null] and [true] as the value of a
    mapping entry is kept, but [true] as an element of a sequence is handed
    to [_snake2camel], which throws; a nonzero number is kept in both
    places. *)
Theorem true_inside_and_at_root :
  snake2camel (VBool true) = Ok VNull /\
  snake2camel (VNum (num 5)) = Ok VNull /\
  snake2camel (VObj [(str "a", VBool true)]) = Ok (VObj [(str "a", VBool true)]) /\
  snake2camel (VArr [VNum (num 5)]) = Ok (VArr [VNum (num 5)]) /\
  _snake2camel (VBool true) = Throw TypeError /\
  _snakeArr2camel [VBool true] = Throw TypeError.
Proof. repeat split. Qed.

(* ================================================================== *)
(** * Digit groups *)

Lemma lang_star_chr (p : jschar -> bool) (r : regex) (s : jsstring) :
  lang r s -> r = Star (Chr p) -> Forall (fun c => p c = true) s.
Proof.
  induction 1 as [ | | | | | |r0 s1 s2 H1 _ H2 IH2| | | ]; intros Hr;
    try discriminate.
  - constructor.
  - inversion Hr; subst r0. inversion H1; subst.
    constructor; [assumption|]. now apply IH2.
Qed.

Lemma lang_plus_digit (g : jsstring) :
  lang (Plus (Chr is_digit)) g -> digits g.
Proof.
  unfold Plus. intros H. inversion H as [ | |r1 r2 s1 s2 H1 H2| | | | | | | ]; subst.
  inversion H1; subst. split; [discriminate|].
  constructor; [assumption|]. now apply (lang_star_chr (p := is_digit) H2).
Qed.

Lemma is_char_eq (a : ascii) (c : jschar) : is_char a c = true -> c = N_of_ascii a.
Proof. unfold is_char, jschar_eqb. intros H. now apply N.eqb_eq in H. Qed.

Lemma lang_dot_group (t : jsstring) :
  lang (Seq (Chr (is_char ".")) (Plus (Chr is_digit))) t ->
  exists g, digits g /\ t = str "." ++ g.
Proof.
  intros H. inversion H as [ | |r1 r2 s1 s2 H1 H2| | | | | | | ]; subst.
  inversion H1 as [ |p a Ha| | | | | | | | ]; subst.
  apply is_char_eq in Ha; subst a.
  exists s2. split; [now apply lang_plus_digit|reflexivity].
Qed.

(** The words of the IPv4 pattern are dotted quads. *)
Lemma lang_ipv4 (t : jsstring) : lang ipv4_pattern t -> dotted_quad t.
Proof.
  unfold ipv4_pattern, Times. intros H.
  inversion H as [ | | | | | | |i r s0 H0| | ]; subst. clear H.
  inversion H0 as [ | |? ? g1 t1 Hg1 H1| | | | | | | ]; subst. clear H0.
  inversion H1 as [ | |? ? u2 t2 Hg2 H2| | | | | | | ]; subst. clear H1.
  inversion H2 as [ | |? ? u3 t3 Hg3 H3| | | | | | | ]; subst. clear H2.
  inversion H3 as [ | |? ? u4 t4 Hg4 H4| | | | | | | ]; subst. clear H3.
  inversion H4; subst. clear H4.
  apply lang_plus_digit in Hg1.
  apply lang_dot_group in Hg2 as (g2 & D2 & ->).
  apply lang_dot_group in Hg3 as (g3 & D3 & ->).
  apply lang_dot_group in Hg4 as (g4 & D4 & ->).
  exists [g1; g2; g3; g4]. split; [reflexivity|]. split.
  - repeat (apply Forall_cons; [assumption|]). apply Forall_nil.
  - cbn [join_dots]. rewrite app_nil_r, <- !app_assoc. reflexivity.
Qed.

(** A digit group holds no code unit below the digits. *)
Lemma digits_lack (x : N) (g : jsstring) :
  (x < 48)%N -> digits g -> existsb (N.eqb x) g = false.
Proof.
  intros Hx [_ H]. induction H as [|c g Hc _ IH]; [reflexivity|].
  cbn [existsb]. rewrite IH, orb_false_r.
  unfold is_digit, in_range in Hc. apply andb_true_iff in Hc as [Hlo _].
  apply N.leb_le in Hlo. apply N.eqb_neq. lia.
Qed.

(** A string with a dotted quad has a dot. *)
Lemma dotted_quad_has_dot (s : jsstring) :
  has_dotted_quad s -> existsb (N.eqb 46) s = true.
Proof.
  intros (pre & t & post & -> & groups & Hlen & _ & ->).
  rewrite !existsb_app.
  destruct groups as [|g1 [|g2 groups]]; try discriminate.
  cbn [join_dots]. rewrite !existsb_app. cbn. rewrite !orb_true_r.
  reflexivity.
Qed.

(* ================================================================== *)
(** * [extractIPv4] *)

(** C9.  On a string that is not empty and holds no four dot-separated
    digit groups, [extractIPv4] throws: the match is [null], and indexing it
    is a TypeError. *)
Theorem extractIPv4_throws (ip : jsstring) :
  ip <> [] -> ~ has_dotted_quad ip -> extractIPv4 ip = Throw TypeError.
Proof.
  intros Hne Hno. unfold extractIPv4.
  destruct ip as [|c ip]; [contradiction|]. cbn [truthy negb].
  unfold str_match.
  destruct (search (c :: ip) ipv4_pattern (c :: ip)) as [[pre m]|] eqn:E;
    [|reflexivity].
  apply search_sound in E as [Heq L]. exfalso. apply Hno.
  exists pre, (matched m), (rest m). split; [assumption|].
  now apply lang_ipv4.
Qed.

Lemma extractIPv4_throws_witness :
  str "the ip is missing" <> [] /\ ~ has_dotted_quad (str "the ip is missing") /\
  extractIPv4 (str "the ip is missing") = Throw TypeError.
Proof.
  assert (Hne : str "the ip is missing" <> []) by discriminate.
  assert (Hno : ~ has_dotted_quad (str "the ip is missing")).
  { intros H. apply dotted_quad_has_dot in H. vm_compute in H. discriminate. }
  split; [exact Hne|]. split; [exact Hno|].
  exact (extractIPv4_throws Hne Hno).
Defined.

(** The strings of the tests. *)
Example extractIPv4_tests :
  extractIPv4 (str "the ip is at the end 1.2.3.4") = Ok (str "1.2.3.4") /\
  extractIPv4 (str "1.2.3.4 at the beginning") = Ok (str "1.2.3.4") /\
  extractIPv4 (str "in the middle 1.2.3.4 with 2.2.3.5 ip addresses")
    = Ok (str "1.2.3.4") /\
  extractIPv4 [] = Ok [].
Proof. repeat split. Qed.

(* ================================================================== *)
(** * [Version] *)

Module VersionFacts.
Import Version.

(** Every word of the version pattern has an opening parenthesis. *)
Lemma lang_version_paren (t : jsstring) :
  lang versionPattern t -> existsb (N.eqb 40) t = true.
Proof.
  unfold versionPattern. intros H.
  inversion H as [ | |? ? s1 t1 _ H1| | | | | | | ]; subst. clear H.
  inversion H1 as [ | |? ? s2 t2 _ H2| | | | | | | ]; subst. clear H1.
  inversion H2 as [ | |? ? s3 t3 _ H3| | | | | | | ]; subst. clear H2.
  inversion H3 as [ | |? ? s4 t4 H4 _| | | | | | | ]; subst. clear H3.
  inversion H4 as [ |p a Ha| | | | | | | | ]; subst.
  apply is_char_eq in Ha; subst a.
  rewrite !existsb_app. cbn. now rewrite !orb_true_r.
Qed.

(** Without a parenthesis there is no match. *)
Lemma version_needs_paren (s : jsstring) :
  existsb (N.eqb 40) s = false -> str_match versionPattern s = None.
Proof.
  intros Hs. unfold str_match.
  destruct (search s versionPattern s) as [[pre m]|] eqn:E; [|reflexivity].
  apply search_sound in E as [Heq L]. apply lang_version_paren in L.
  rewrite Heq, !existsb_app in Hs. rewrite L, orb_true_r in Hs. discriminate.
Qed.

Lemma join_dots_lack_paren (groups : list jsstring) :
  Forall digits groups -> existsb (N.eqb 40) (join_dots groups) = false.
Proof.
  induction 1 as [|g groups Hg _ IH]; [reflexivity|].
  assert (Eg : existsb (N.eqb 40) g = false) by (apply digits_lack; [lia|assumption]).
  destruct groups as [|g' groups]; [exact Eg|].
  change (join_dots (g :: g' :: groups))
    with (g ++ str "." ++ join_dots (g' :: groups)).
  now rewrite !existsb_app, Eg, IH.
Qed.

Lemma parse_no_match (s : jsstring) :
  str_match versionPattern s = None -> parse (VStr s) = Ok no_version.
Proof. intros H. unfold parse. now rewrite H. Qed.

(** A bare dotted version is not recognised: the version comes back empty,
    not as the input. *)
Lemma parse_bare_version_counterexample :
  ~ (forall s, dotted_version s ->
       exists p, parse (VStr s) = Ok p /\ toString (version p) = s /\
                 build p = VNum (num 0)).
Proof.
  intros H. destruct (H (str "1.2.3")) as (p & Hp & Hv & _).
  - exists [str "1"; str "2"; str "3"]. split; [simpl; lia|].
    split; [|reflexivity].
    repeat (apply Forall_cons;
            [split; [discriminate|repeat constructor]|]).
    apply Forall_nil.
  - vm_compute in Hp. inversion Hp; subst p. discriminate Hv.
Qed.

(** C1, amended.  For a string of one to three dot-separated digit groups
    without a parenthesised build number, [parse] returns the empty version
    and the build [0]: the pattern requires the build number. *)
Theorem parse_bare_version (s : jsstring) :
  dotted_version s -> parse (VStr s) = Ok no_version.
Proof.
  intros (groups & _ & Hd & ->).
  apply parse_no_match, version_needs_paren. now apply join_dots_lack_paren.
Qed.

Lemma parse_bare_version_witness :
  dotted_version (str "1.2.3") /\ parse (VStr (str "1.2.3")) = Ok no_version.
Proof.
  assert (H : dotted_version (str "1.2.3")).
  { exists [str "1"; str "2"; str "3"]. split; [simpl; lia|].
    split; [|reflexivity].
    repeat (apply Forall_cons;
            [split; [discriminate|repeat constructor]|]).
    apply Forall_nil. }
  split; [exact H|]. exact (parse_bare_version H).
Defined.

(** The build number comes back as the digits captured, a string. *)
Lemma parse_build_counterexample :
  ~ (exists p, parse (VStr (str "1.2.3 (45)")) = Ok p /\
               toString (version p) = str "1.2.3" /\
               build p = VNum (num 45)).
Proof.
  intros (p & Hp & _ & Hb). vm_compute in Hp. inversion Hp; subst p.
  discriminate Hb.
Qed.

(** C7, amended.  [parse("1.2.3 (45)")] returns the version [1.2.3] and, as
    build, the captured digits as the string ["45"]; for an input that is
    not a string, and for a string the pattern does not match, it returns
    the empty version and the build [0]. *)
Theorem parse_results :
  parse (VStr (str "1.2.3 (45)"))
    = Ok {| version := {| ver := str "1.2.3" |}; build := VStr (str "45") |} /\
  (forall v, isString v = false -> parse v = Ok no_version) /\
  (forall s, str_match versionPattern s = None -> parse (VStr s) = Ok no_version).
Proof.
  split; [reflexivity|]. split.
  - intros v Hv. destruct v; try discriminate; reflexivity.
  - exact parse_no_match.
Qed.

Lemma parse_results_witness :
  (isString (VNum (num 45)) = false /\ parse (VNum (num 45)) = Ok no_version) /\
  (str_match versionPattern (str "not a version") = None /\
   parse (VStr (str "not a version")) = Ok no_version).
Proof.
  destruct parse_results as (_ & Hv & Hs). split.
  - split; [reflexivity|]. apply Hv. reflexivity.
  - assert (H : str_match versionPattern (str "not a version") = None)
      by reflexivity.
    split; [exact H|]. exact (Hs _ H).
Defined.

(** [toString] gives back the string the version was made from. *)
Lemma toString_Version (s : jsstring) :
  exists v, Version (VStr s) = Ok v /\ toString v = s.
Proof. eexists. split; reflexivity. Qed.

(** C6.  For version strings [a] and [b], exactly one of [lt], [eq] and
    [gt] holds of [Version(a)] and [b]; [gte] is [gt] or [eq], and [lte] is
    [lt] or [eq]. *)
Theorem version_trichotomy (compareVersion : jsstring -> jsstring -> Z)
    (a b : jsstring) :
  exists v, Version (VStr a) = Ok v /\
    ((lt compareVersion v b = true /\ eq compareVersion v b = false /\
      gt compareVersion v b = false) \/
     (lt compareVersion v b = false /\ eq compareVersion v b = true /\
      gt compareVersion v b = false) \/
     (lt compareVersion v b = false /\ eq compareVersion v b = false /\
      gt compareVersion v b = true)) /\
    gte compareVersion v b = gt compareVersion v b || eq compareVersion v b /\
    lte compareVersion v b = lt compareVersion v b || eq compareVersion v b.
Proof.
  exists {| ver := a |}. split; [reflexivity|].
  unfold lt, eq, gt, gte, lte; cbn [ver].
  generalize (compareVersion a b). intros z.
  rewrite Z.gtb_ltb, Z.geb_leb.
  destruct (Z.ltb_spec z 0), (Z.eqb_spec z 0), (Z.ltb_spec 0 z),
           (Z.leb_spec 0 z), (Z.leb_spec z 0);
    try lia; cbn; auto 10.
Qed.

(** The comparisons of the tests, with the comparator modelled from the
    spec. *)
Example version_tests :
  let v := {| ver := str "1.2.3" |} in
  let results f := map (f compare_dotted v) [str "1.2.2"; str "1.2.3"; str "1.2.4"] in
  results gte = [true; true; false] /\
  results gt = [true; false; false] /\
  results lte = [false; true; true] /\
  results lt = [false; false; true] /\
  compare_dotted (str "1.2") (str "1.2.0") = 0%Z /\
  compare_dotted (str "1.10") (str "1.9.5") = 1%Z.
Proof. repeat split. Qed.

End VersionFacts.

(* ================================================================== *)
(** * [isNumericMap] *)

(** Without the fast check the loop never sets the flag. *)
Lemma numeric_loop_full (keys : list jsstring) (counter : N) :
  numeric_loop (VBool false) keys counter false = false.
Proof.
  revert counter; induction keys as [|key keys IH]; intros counter.
  - reflexivity.
  - cbn [numeric_loop truthy]. destruct (isNaN key); [reflexivity|apply IH].
Qed.

Lemma isNumericMap_full_false (map : value) :
  isNumericMap map (VBool false) = false.
Proof.
  unfold isNumericMap. cbn [isUndefined].
  destruct (negb (isArray map)); [apply numeric_loop_full|reflexivity].
Qed.

(** C8.  On the mapping of the tests, whose keys [1], [2] and [3] are all
    numeric, the check without the fast path answers [false]. *)
Theorem isNumericMap_full_numeric_keys :
  isNumericMap (VObj [(str "1", VStr (str "abc")); (str "2", VStr (str "def"));
                      (str "3", VStr (str "ghi"))]) (VBool false) = false /\
  forallb (fun key => negb (isNaN key)) [str "1"; str "2"; str "3"] = true.
Proof. split; reflexivity. Qed.

(** The fast check, which is the default, looks at the first key only. *)
Lemma isNumericMap_fast (own : props) :
  isNumericMap (VObj own) VUndef =
  match own with
  | [] => false
  | (key, _) :: _ => negb (isNaN key)
  end.
Proof.
  destruct own as [|[key val] own]; [reflexivity|].
  unfold isNumericMap. cbn [isUndefined isArray negb for_in_keys map fst].
  cbn [numeric_loop truthy N.eqb negb].
  destruct (isNaN key); [|reflexivity]. cbn [negb].
  destruct own as [|[key' val'] own]; reflexivity.
Qed.

(** The mappings of the tests, in the order their keys are enumerated. *)
Example isNumericMap_tests :
  isNumericMap (VObj [(str "1", VStr (str "abc")); (str "2", VStr (str "def"));
                      (str "3", VStr (str "ghi"))]) VUndef = true /\
  isNumericMap (VObj [(str "1", VStr (str "1")); (str "3", VNum (num 3));
                      (str "abc", VNum (num 2))]) (VBool true) = true /\
  isNumericMap (VObj [(str "2", VNum (num 2)); (str "3", VStr (str "3"));
                      (str "abc", VNum (num 1))]) (VBool false) = false.
Proof. repeat split. Qed.

(* ================================================================== *)
(** * The shape of the result *)

Section PropsMembers.
Context {A : Type}.
Implicit Types (o : list (jsstring * A)) (k : jsstring) (v : A).

(** An assignment adds one value and brings in no other. *)
Lemma In_obj_set k v o (x : A) :
  In x (map snd (obj_set k v o)) -> x = v \/ In x (map snd o).
Proof.
  unfold obj_set. destruct (has_key k o).
  - induction o as [|[k1 v1] o IH]; cbn [obj_replace map snd]; [auto|].
    destruct (jsstring_eqb k k1); cbn [map snd In].
    + intros [<-|H]; auto.
    + intros [<-|H]; [auto|]. destruct (IH H); auto.
  - induction o as [|[k1 v1] o IH]; cbn [obj_insert map snd In].
    + intros [<-|[]]; auto.
    + destruct (key_before k k1); cbn [map snd In].
      * intros [<-|[<-|H]]; auto.
      * intros [<-|H]; [auto|]. destruct (IH H); auto.
Qed.
End PropsMembers.

(** When the callback succeeds on each value visited, the loop succeeds,
    and what it stores are results of the callback. *)
Lemma each_loop_values (deep : value -> result value) (Q : value -> value -> Prop)
    (visited : props) :
  Forall (fun val => isFunction val = false -> isPrimitive val = false ->
                     exists r, deep val = Ok r /\ Q val r) (map snd visited) ->
  forall values, exists values',
    each_loop deep visited values = Ok values' /\
    forall x, In x (map snd values') ->
      In x (map snd values) \/
      exists val, In val (map snd visited) /\ isFunction val = false /\
        ((isPrimitive val = true /\ x = val) \/ (isPrimitive val = false /\ Q val x)).
Proof.
  induction visited as [|[key val] visited IH]; intros Hall values.
  - exists values. split; [reflexivity|auto].
  - cbn [map snd] in Hall. inversion Hall as [|? ? Hval Hrest]; subst.
    destruct (IH Hrest) with (values := values) as (v0 & _).
    cbn [each_loop]. unfold each_callback.
    destruct (isFunction val) eqn:Hf; cbn [negb bind].
    + destruct (IH Hrest values) as (values' & E & Hin).
      exists values'. split; [exact E|]. intros x Hx.
      destruct (Hin x Hx) as [?|(val' & ? & ? & ?)]; [auto|].
      right. exists val'. cbn [map snd In]. auto.
    + destruct (isPrimitive val) eqn:Hp; cbn [bind].
      * destruct (IH Hrest (obj_set (_snake2camel_key key) val values))
          as (values' & E & Hin).
        exists values'. split; [exact E|]. intros x Hx.
        destruct (Hin x Hx) as [Hset|(val' & ? & ? & ?)].
        -- apply In_obj_set in Hset as [->|?]; [|auto].
           right. exists val. cbn [map snd In]. auto.
        -- right. exists val'. cbn [map snd In]. auto.
      * destruct (Hval eq_refl eq_refl) as (r & -> & Hq). cbn [bind].
        destruct (IH Hrest (obj_set (_snake2camel_key key) r values))
          as (values' & E & Hin).
        exists values'. split; [exact E|]. intros x Hx.
        destruct (Hin x Hx) as [Hset|(val' & ? & ? & ?)].
        -- apply In_obj_set in Hset as [->|?]; [|auto].
           right. exists val. cbn [map snd In]. auto.
        -- right. exists val'. cbn [map snd In]. auto.
Qed.

(** What [_.each] visits on a mapping are values of the mapping, or
    [undefined]. *)
Lemma each_values (len : option N) (own : props) (x : value) :
  In x (map snd (each VUndef len own)) -> x = VUndef \/ In x (map snd own).
Proof.
  destruct len as [n|]; [|auto]. unfold each. rewrite map_map. cbn [snd].
  intros H. apply in_map_iff in H as (i & <- & _).
  destruct (obj_get (dec i) own) as [a|] eqn:E; [|auto].
  right. apply obj_get_In in E. now apply (in_map snd) in E.
Qed.

Lemma alike_primitive (v : value) : isPrimitive v = true -> alike v v.
Proof. destruct v; try discriminate; constructor. Qed.

(** A walkable value is walked without an exception, into a value of the
    same shape. *)
Lemma camel_item_alike (v : value) :
  walkable v = true -> exists r, camel_item v = Ok r /\ alike v r.
Proof.
  induction v as [| | b | n | s | own _ | items IH | own IH]
    using value_induction; intros Hw.
  - exists VUndef. split; [reflexivity|constructor].
  - exists VNull. split; [reflexivity|constructor].
  - destruct b; [discriminate|]. exists (VBool false). split; [reflexivity|constructor].
  - exists (VNum n). split; [|constructor].
    cbn [camel_item]. unfold _snake2camel. cbn [isNumber]. now rewrite orb_true_r.
  - exists (VStr (key_style s)). split; [|constructor].
    apply _snake2camel_string.
  - discriminate.
  - cbn [walkable] in Hw.
    assert (H : exists l, mapM camel_item items = Ok l /\ Forall2 alike items l).
    { induction IH as [|x items Hx _ IHitems]; [exists []; split; [reflexivity|constructor]|].
      cbn [forallb] in Hw. apply andb_true_iff in Hw as [Hwx Hwi].
      destruct (Hx Hwx) as (r & Er & Ar). destruct (IHitems Hwi) as (l & El & Al).
      exists (r :: l). cbn [mapM]. rewrite Er, El. split; [reflexivity|].
      now constructor. }
    destruct H as (l & El & Al). exists (VArr l). cbn [camel_item].
    rewrite El. split; [reflexivity|now constructor].
  - cbn [walkable] in Hw.
    rewrite camel_item_eq.
    cbn [isPrimitive isNumber isBoolean isString isNull isUndefined orb isArray].
    unfold _snakeObj2camel. cbn [truthy negb each_of].
    destruct (@each_loop_values camel_item alike (each VUndef (array_like own) own))
      with (values := @nil (jsstring * value)) as (values & E & Hin).
    { apply Forall_forall. intros val Hval Hf Hp.
      apply each_values in Hval as [->|Hval]; [discriminate|].
      apply (proj1 (Forall_forall _ _) IH val Hval).
      apply in_map_iff in Hval as ([k v'] & Hs & Hkv). cbn [snd] in Hs; subst v'.
      apply (proj1 (forallb_forall _ _) Hw) in Hkv. cbn in Hkv.
      rewrite Hf, Hp in Hkv. exact Hkv. }
    exists (VObj values). rewrite E. split; [reflexivity|].
    constructor. apply Forall_forall. intros [k' x] Hx.
    apply (in_map snd) in Hx. cbn [snd] in *.
    destruct (Hin x Hx) as [[]|(val & Hval & Hf & Hcase)].
    apply each_values in Hval as [->|Hval].
    + left. destruct Hcase as [[_ ->]|[Hp _]]; [reflexivity|discriminate].
    + right. exists val. split; [exact Hval|]. split; [exact Hf|].
      destruct Hcase as [[Hp ->]|[_ Hq]]; [now apply alike_primitive|exact Hq].
Qed.

(** For a sequence or a mapping that holds no [true] (and no function) as
    an element of a sequence, [snake2camel] returns a value of the same
    shape. *)
Lemma snake2camel_alike (v : value) :
  isObject v = true -> walkable v = true ->
  exists r, snake2camel v = Ok r /\ alike v r.
Proof.
  intros Ho Hw. destruct (camel_item_alike v Hw) as (r & E & A).
  exists r. split; [|exact A]. rewrite <- E, camel_item_eq.
  destruct v; try discriminate; reflexivity.
Qed.

(* ================================================================== *)
(** * More on the matcher *)

Lemma take_skip (p : jschar -> bool) (s : jsstring) :
  take_while p s ++ skip_while p s = s.
Proof.
  induction s as [|c s IH]; [reflexivity|].
  cbn [take_while skip_while]. destruct (p c); [|reflexivity].
  cbn [app]. now rewrite IH.
Qed.

Lemma skip_while_length (p : jschar -> bool) (s : jsstring) :
  length (skip_while p s) <= length s.
Proof.
  induction s as [|c s IH]; [reflexivity|].
  cbn [skip_while]. destruct (p c); simpl; lia.
Qed.

Lemma skip_while_app (p : jschar -> bool) (g t : jsstring) :
  Forall (fun c => p c = true) g -> skip_while p (g ++ t) = skip_while p t.
Proof.
  induction 1 as [|c g Hc _ IH]; [reflexivity|].
  cbn [app skip_while]. now rewrite Hc.
Qed.

Lemma take_while_app (p : jschar -> bool) (g t : jsstring) :
  Forall (fun c => p c = true) g -> take_while p (g ++ t) = g ++ take_while p t.
Proof.
  induction 1 as [|c g Hc _ IH]; [reflexivity|].
  cbn [app take_while]. now rewrite Hc, IH.
Qed.

Lemma take_while_all (p : jschar -> bool) (s : jsstring) :
  Forall (fun c => p c = true) (take_while p s).
Proof.
  induction s as [|c s IH]; [constructor|].
  cbn [take_while]. destruct (p c) eqn:E; constructor; assumption.
Qed.

Section MatcherFacts.
Variable input : jsstring.

(** A pattern without groups leaves the captures alone. *)
Lemma rmatch_group_free (r : regex) :
  group_free r = true ->
  forall s c k m, rmatch input r s c k = Some m ->
  exists s1 s2, s = s1 ++ s2 /\ lang r s1 /\ k s2 c = Some m.
Proof.
  induction r as [|p|r1 IH1 r2 IH2|r1 IH1 r2 IH2|r IH|i r IH| |];
    intros Hg s c k m H; cbn [group_free] in Hg; cbn [rmatch] in H.
  - exists [], s. auto using L_Eps.
  - destruct s as [|a s']; [discriminate|].
    destruct (p a) eqn:Hp; [|discriminate].
    exists [a], s'. auto using L_Chr.
  - apply andb_true_iff in Hg as [Hg1 Hg2].
    apply (IH1 Hg1) in H as (s1 & s2 & -> & L1 & H).
    apply (IH2 Hg2) in H as (t1 & t2 & -> & L2 & H).
    exists (s1 ++ t1), t2. rewrite app_assoc. auto using L_Seq.
  - apply andb_true_iff in Hg as [Hg1 Hg2].
    destruct (rmatch input r1 s c k) eqn:E.
    + inversion H; subst.
      apply (IH1 Hg1) in E as (s1 & s2 & -> & L1 & E).
      exists s1, s2. auto using L_AltL.
    + apply (IH2 Hg2) in H as (s1 & s2 & -> & L1 & H).
      exists s1, s2. auto using L_AltR.
  - revert H. generalize (length s) at 1. intros n. revert s.
    induction n as [|n IHn]; intros s H; cbn [star_loop] in H.
    + exists [], s. auto using L_StarNil.
    + match type of H with
      | match ?e with _ => _ end = _ => destruct e eqn:E
      end.
      * inversion H; subst.
        apply (IH Hg) in E as (s1 & s2 & -> & L1 & E).
        destruct (Nat.ltb (length s2) (length (s1 ++ s2))); [|discriminate].
        apply IHn in E as (t1 & t2 & -> & L2 & E).
        exists (s1 ++ t1), t2. rewrite app_assoc. auto using L_StarCons.
      * exists [], s. auto using L_StarNil.
  - discriminate.
  - destruct (Nat.eqb (length s) (length input)); [|discriminate].
    exists [], s. auto using L_Bol.
  - destruct s; [|discriminate]. exists [], []. auto using L_Eol.
Qed.

(** A group records the text its pattern consumed. *)
Lemma rmatch_group (i : nat) (r : regex) :
  group_free r = true ->
  forall s c k m, rmatch input (Group i r) s c k = Some m ->
  exists s1 s2, s = s1 ++ s2 /\ lang r s1 /\ k s2 ((i, s1) :: c) = Some m.
Proof.
  intros Hg s c k m H. cbn [rmatch] in H.
  apply (rmatch_group_free r Hg) in H as (s1 & s2 & -> & L & H).
  rewrite firstn_consumed in H. exists s1, s2. auto.
Qed.

(** A starred class takes all it can, when what follows then succeeds. *)
Lemma star_chr_greedy (p : jschar -> bool) (k : cont) :
  forall n s c, length s <= n -> k (skip_while p s) c <> None ->
  star_loop (rmatch input (Chr p)) k n s c = k (skip_while p s) c.
Proof.
  induction n as [|n IH]; intros s c Hn Hk.
  - destruct s; [reflexivity|simpl in Hn; lia].
  - destruct s as [|a s']; [reflexivity|].
    cbn [star_loop rmatch skip_while] in *. destruct (p a); [|reflexivity].
    replace (Nat.ltb (length s') (length (a :: s'))) with true
      by (symmetry; apply Nat.ltb_lt; simpl; lia).
    simpl in Hn. rewrite (IH s' c) by (auto; lia).
    destruct (k (skip_while p s') c); [reflexivity|contradiction].
Qed.

Lemma rmatch_star_chr (p : jschar -> bool) (k : cont) (s : jsstring) (c : caps) :
  k (skip_while p s) c <> None ->
  rmatch input (Star (Chr p)) s c k = k (skip_while p s) c.
Proof. intros Hk. cbn [rmatch]. now apply star_chr_greedy. Qed.

Lemma rmatch_plus_chr (p : jschar -> bool) (k : cont) (a : jschar)
    (s : jsstring) (c : caps) :
  p a = true -> k (skip_while p s) c <> None ->
  rmatch input (Plus (Chr p)) (a :: s) c k = k (skip_while p s) c.
Proof.
  intros Ha Hk. unfold Plus. cbn [rmatch]. rewrite Ha.
  now apply star_chr_greedy.
Qed.

Lemma rmatch_plus_chr_miss (p : jschar -> bool) (k : cont) (s : jsstring) (c : caps) :
  match s with [] => true | a :: _ => negb (p a) end = true ->
  rmatch input (Plus (Chr p)) s c k = None.
Proof.
  unfold Plus. cbn [rmatch]. destruct s as [|a s]; [reflexivity|].
  intros H. apply negb_true_iff in H. now rewrite H.
Qed.

(** A match further on makes the search succeed. *)
Lemma search_finds (r : regex) (pre s : jsstring) :
  match_at input r s <> None -> search input r (pre ++ s) <> None.
Proof.
  intros H. induction pre as [|a pre IH].
  - cbn [app]. rewrite search_unfold. destruct (match_at input r s); [discriminate|contradiction].
  - cbn [app]. rewrite search_unfold.
    destruct (match_at input r (a :: pre ++ s)); [discriminate|].
    destruct (search input r (pre ++ s)) as [[pre' m]|]; [discriminate|contradiction].
Qed.

Section ReplaceLoop.
Variable r : regex.
Variable f : found -> jsstring.

(** Where the pattern does not match, the code unit is copied. *)
Lemma replace_loop_miss (n : nat) (a : jschar) (s : jsstring) :
  match_at input r (a :: s) = None ->
  replace_loop input r f (S n) (a :: s) = a :: replace_loop input r f (S n) s.
Proof.
  intros H. cbn [replace_loop]. rewrite (search_unfold input r (a :: s)), H.
  destruct (search input r s) as [[pre m]|]; reflexivity.
Qed.

(** Where it matches some text, the text is replaced and the scan goes on
    behind it. *)
Lemma replace_loop_hit (n : nat) (s : jsstring) (m : found) :
  match_at input r s = Some m -> matched m <> [] ->
  replace_loop input r f (S n) s = f m ++ replace_loop input r f n (rest m).
Proof.
  intros H Hm. cbn [replace_loop]. rewrite (search_unfold input r s), H.
  cbn [app]. destruct (matched m); [contradiction|reflexivity].
Qed.

Lemma replace_loop_ext (g : found -> jsstring) :
  (forall m, f m = g m) ->
  forall n s, replace_loop input r f n s = replace_loop input r g n s.
Proof.
  intros Hfg. induction n as [|n IH]; intros s; [reflexivity|].
  cbn [replace_loop]. destruct (search input r s) as [[pre m]|]; [|reflexivity].
  rewrite Hfg. destruct (matched m), (rest m); now rewrite ?IH.
Qed.

Lemma replace_loop_end (n : nat) :
  match_at input r [] = None -> replace_loop input r f n [] = [].
Proof.
  intros H. destruct n; [reflexivity|].
  cbn [replace_loop]. now rewrite search_unfold, H.
Qed.
End ReplaceLoop.

(** A class repeated, tried at a position. *)
Lemma match_at_plus_chr (p : jschar -> bool) (s : jsstring) :
  match_at input (Plus (Chr p)) s =
  match s with
  | a :: s' =>
      if p a
      then Some {| matched := a :: take_while p s'; captured := [];
                   rest := skip_while p s' |}
      else None
  | [] => None
  end.
Proof.
  unfold match_at. destruct s as [|a s'].
  - now rewrite rmatch_plus_chr_miss.
  - destruct (p a) eqn:Ha.
    + rewrite rmatch_plus_chr by (auto; discriminate).
      pose proof (firstn_consumed (a :: take_while p s') (skip_while p s')) as E.
      cbn [app] in E. rewrite take_skip in E. now rewrite E.
    + rewrite rmatch_plus_chr_miss; [reflexivity|]. cbn. now rewrite Ha.
Qed.
End MatcherFacts.

(* ================================================================== *)
(** * [normalizeString] *)

Lemma substitute_nil (groups : N) (input : jsstring) (m : found) :
  substitute groups input m [] = [].
Proof. reflexivity. Qed.

(** Deleting the runs of a class leaves the code units outside it. *)
Lemma delete_class (input : jsstring) (p : jschar -> bool) (k : nat) :
  forall n s, length s <= k -> length s < n ->
  replace_loop input (Plus (Chr p)) (fun _ => []) n s
  = filter (fun c => negb (p c)) s.
Proof.
  induction k as [|k IH]; intros n s Hk Hn.
  - destruct s; [|simpl in Hk; lia]. apply replace_loop_end. reflexivity.
  - destruct n as [|n]; [lia|]. destruct s as [|a s'].
    + apply replace_loop_end. reflexivity.
    + cbn [filter]. simpl in Hk, Hn. destruct (p a) eqn:Ha; cbn [negb].
      * rewrite (replace_loop_hit input (Plus (Chr p)) (fun _ => []) n (a :: s')
                   (m := {| matched := a :: take_while p s'; captured := [];
                            rest := skip_while p s' |})).
        -- cbn [app rest]. pose proof (skip_while_length p s').
           rewrite IH by lia.
           rewrite <- (take_skip p s') at 2. rewrite filter_app.
           replace (filter (fun c => negb (p c)) (take_while p s')) with (@nil N);
             [reflexivity|].
           symmetry. generalize (take_while_all p s').
           induction 1 as [|c l Hc _ IHl]; [reflexivity|].
           cbn [filter]. now rewrite Hc.
        -- rewrite match_at_plus_chr. now rewrite Ha.
        -- discriminate.
      * rewrite replace_loop_miss.
        -- f_equal. apply IH; lia.
        -- rewrite match_at_plus_chr. now rewrite Ha.
Qed.

(** White space is outside the word class. *)
Lemma word_not_space (c : jschar) : is_word c = true -> is_space c = false.
Proof.
  unfold is_word, is_space, is_digit, is_char, jschar_eqb, in_range.
  cbn [existsb N_of_ascii]. intros H.
  assert (Hc : (48 <= c <= 122)%N).
  { repeat (apply orb_true_iff in H as [H|H]);
      try (apply andb_true_iff in H as [H1 H2];
           apply N.leb_le in H1; apply N.leb_le in H2; lia).
    apply N.eqb_eq in H. subst c. vm_compute. split; discriminate. }
  repeat (apply orb_false_iff; split);
    try (apply andb_false_iff;
         destruct (N.leb_spec 9 c), (N.leb_spec c 13),
                  (N.leb_spec 8192 c), (N.leb_spec c 8202); auto; lia);
    try (apply N.eqb_neq; lia); reflexivity.
Qed.

Lemma lower_unit_word (c : jschar) : is_word c = true -> lower_unit c = [lower_ascii c].
Proof.
  unfold lower_unit, lower_ascii. intros H.
  destruct (in_range 65 90 c); [reflexivity|].
  assert (Hc : (c <= 122)%N).
  { unfold is_word, is_digit, is_char, jschar_eqb, in_range in H.
    cbn [N_of_ascii] in H.
    repeat (apply orb_true_iff in H as [H|H]);
      try (apply andb_true_iff in H as [H1 H2];
           apply N.leb_le in H1; apply N.leb_le in H2; lia).
    apply N.eqb_eq in H. subst c. vm_compute. discriminate. }
  replace (N.eqb c 304) with false by (symmetry; apply N.eqb_neq; lia).
  replace (N.eqb c 8490) with false by (symmetry; apply N.eqb_neq; lia).
  reflexivity.
Qed.

Lemma toLowerCase_words (s : jsstring) :
  Forall (fun c => is_word c = true) s -> toLowerCase s = map lower_ascii s.
Proof.
  induction 1 as [|c s Hc _ IH]; [reflexivity|].
  unfold toLowerCase in *. cbn [flat_map map].
  now rewrite (lower_unit_word c Hc), IH.
Qed.

(** The pattern deletes what is not a word character. *)
Lemma delete_nonwords (s : jsstring) :
  replace_global normalizeRegex [] s = filter is_word s.
Proof.
  unfold replace_global, normalizeRegex. cbn [substitute].
  rewrite (delete_class s _ (k := length s)) by lia.
  apply filter_ext. intros c. destruct (is_word c) eqn:Hw; [|reflexivity].
  now rewrite (word_not_space c Hw).
Qed.

Lemma filter_words (s : jsstring) : Forall (fun c => is_word c = true) (filter is_word s).
Proof. apply Forall_forall. intros c Hc. now apply filter_In in Hc. Qed.

(** [normalizeString] keeps the word characters [A-Za-z0-9_] of the string,
    in their order, the capitals lowered, and drops every other code
    unit. *)
Theorem normalizeString_keeps_words (s : jsstring) :
  normalizeString s = map lower_ascii (filter is_word s).
Proof.
  unfold normalizeString. rewrite delete_nonwords.
  apply toLowerCase_words, filter_words.
Qed.

(** Facts on ranges of code units, by arithmetic. *)
Ltac class_arith :=
  unfold lower_ascii, is_word, is_lower, is_digit, is_char, jschar_eqb, in_range in *;
  change (N_of_ascii "_") with 95%N in *;
  repeat match goal with
         | H : context [N.leb ?a ?b] |- _ => destruct (N.leb_spec a b)
         | H : context [N.eqb ?a ?b] |- _ => destruct (N.eqb_spec a b)
         | |- context [N.leb ?a ?b] => destruct (N.leb_spec a b)
         | |- context [N.eqb ?a ?b] => destruct (N.eqb_spec a b)
         end;
  cbn in *; try discriminate; try reflexivity; try lia.

Lemma lower_ascii_word (c : jschar) : is_word c = true -> is_word (lower_ascii c) = true.
Proof. intros H. class_arith. Qed.

Lemma lower_ascii_twice (c : jschar) : lower_ascii (lower_ascii c) = lower_ascii c.
Proof. class_arith. Qed.

Lemma lower_ascii_small (c : jschar) :
  is_word c = true ->
  is_lower (lower_ascii c) || is_digit (lower_ascii c) || is_char "_" (lower_ascii c) = true.
Proof. intros H. class_arith. Qed.

(** The result of [normalizeString] is made of [a-z0-9_] only, and
    normalizing it again changes nothing. *)
Theorem normalizeString_idempotent (s : jsstring) :
  Forall (fun c => is_lower c || is_digit c || is_char "_" c = true)
         (normalizeString s) /\
  normalizeString (normalizeString s) = normalizeString s.
Proof.
  unfold normalizeString. rewrite !delete_nonwords.
  rewrite (toLowerCase_words (filter_words s)).
  generalize (filter_words s). generalize (filter is_word s). intros l Hw.
  assert (Hl : filter is_word (map lower_ascii l) = map lower_ascii l).
  { induction Hw as [|c l Hc _ IH]; [reflexivity|].
    cbn [map filter]. now rewrite (lower_ascii_word c Hc), IH. }
  rewrite Hl. split.
  - clear Hl. induction Hw as [|c l Hc _ IH]; [constructor|].
    cbn [map]. constructor; [now apply lower_ascii_small|exact IH].
  - rewrite toLowerCase_words.
    + rewrite map_map. apply map_ext. intros c. apply lower_ascii_twice.
    + rewrite <- Hl. apply filter_words.
Qed.

(* ================================================================== *)
(** * [nl2br] *)

Lemma firstn_consumed1 {A} (a : A) (s : list A) :
  firstn (length (a :: s) - length s) (a :: s) = [a].
Proof. exact (firstn_consumed [a] s). Qed.

Lemma firstn_consumed2 {A} (a b : A) (s : list A) :
  firstn (length (a :: b :: s) - length s) (a :: b :: s) = [a; b].
Proof. exact (firstn_consumed [a; b] s). Qed.

Lemma firstn_consumed3 {A} (a b c : A) (s : list A) :
  firstn (length (a :: b :: c :: s) - length s) (a :: b :: c :: s) = [a; b; c].
Proof. exact (firstn_consumed [a; b; c] s). Qed.

Lemma firstn_consumed0 {A} (s : list A) : firstn (length s - length s) s = [].
Proof. now rewrite Nat.sub_diag. Qed.

Lemma line_end_app (s tok rest0 : jsstring) :
  line_end s = Some (tok, rest0) -> s = tok ++ rest0 /\ tok <> [].
Proof.
  unfold line_end. destruct s as [|c [|d t]]; [discriminate| |].
  - destruct (is_newline c); [|discriminate].
    intros H; inversion H. split; [reflexivity|discriminate].
  - destruct (is_newline c); [|discriminate].
    destruct (is_newline d && negb (N.eqb c d));
      intros H; inversion H; split; try reflexivity; discriminate.
Qed.

Lemma line_end_newline (c : jschar) (t : jsstring) :
  is_newline c = false -> line_end (c :: t) = None.
Proof. intros H. unfold line_end. now rewrite H. Qed.

Section LineBreaks.
Variable input : jsstring.

Let token : regex :=
  Alt (Lit [13; 10]%N) (Alt (Lit [10; 13]%N) (Alt (Chr (N.eqb 13)) (Chr (N.eqb 10)))).

(** The alternatives of the second group, before a continuation that
    always succeeds. *)
Lemma rmatch_token (k : cont) (s : jsstring) (c : caps) :
  (forall s' c', k s' c' <> None) ->
  rmatch input token s c k =
  match line_end s with
  | Some (_, rest0) => k rest0 c
  | None => None
  end.
Proof.
  intros Hk.
  assert (Hsome : forall s' c' (X : option (list N * caps)),
             match k s' c' with Some m => Some m | None => X end = k s' c').
  { intros s' c' X. specialize (Hk s' c'). now destruct (k s' c'). }
  unfold token, line_end, is_newline.
  destruct s as [|a [|d t]]; cbn [rmatch Lit]; unfold jschar_eqb;
    rewrite ?(N.eqb_sym 13 a), ?(N.eqb_sym 10 a), ?(N.eqb_sym 13 d), ?(N.eqb_sym 10 d).
  - reflexivity.
  - destruct (N.eqb_spec a 13), (N.eqb_spec a 10); subst; try discriminate;
      cbn; rewrite ?Hsome; reflexivity.
  - destruct (N.eqb_spec a 13), (N.eqb_spec a 10),
             (N.eqb_spec d 13), (N.eqb_spec d 10); subst; try discriminate;
      cbn; rewrite ?Hsome; reflexivity.
Qed.

(** The pattern matches at a line ending, and one code unit before it
    unless that is a [>]; either way the line ending is where the tag
    goes. *)
Lemma match_at_nl (s : jsstring) :
  match_at input nl_pattern s =
  match s with
  | [] => None
  | c :: t =>
      if negb (existsb (N.eqb c) [62; 13; 10]%N) then
        match line_end t with
        | Some (tok, rest0) =>
            Some {| matched := c :: tok; captured := [(2, tok); (1, [c])];
                    rest := rest0 |}
        | None => None
        end
      else
        match line_end s with
        | Some (tok, rest0) =>
            Some {| matched := tok; captured := [(2, tok); (1, [])]; rest := rest0 |}
        | None => None
        end
  end.
Proof.
  unfold match_at, nl_pattern, Opt. fold token. cbn [rmatch].
  assert (Hg : forall s0 c0,
    rmatch input token s0 c0
      (fun s' c' => Some (s', (2, firstn (length s0 - length s') s0) :: c'))
    = match line_end s0 with
      | Some (tok, rest0) => Some (rest0, (2, tok) :: c0)
      | None => None
      end).
  { intros s0 c0. rewrite rmatch_token by discriminate.
    destruct (line_end s0) as [[tok rest0]|] eqn:E; [|reflexivity].
    apply line_end_app in E as [-> _]. now rewrite firstn_consumed. }
  destruct s as [|c t].
  - rewrite Hg. reflexivity.
  - destruct (negb (existsb (N.eqb c) [62; 13; 10]%N)) eqn:Hc.
    + rewrite Hg. destruct (line_end t) as [[tok rest0]|] eqn:E.
      * apply line_end_app in E as [-> _].
        pose proof (firstn_consumed (c :: tok) rest0) as E. cbn [app] in E.
        now rewrite (firstn_consumed1 c), E.
      * rewrite Hg, line_end_newline; [reflexivity|].
        unfold is_newline. cbn [existsb] in Hc.
        apply negb_true_iff in Hc. apply orb_false_iff in Hc as [_ Hc].
        apply orb_false_iff in Hc as [H13 Hc].
        apply orb_false_iff in Hc as [H10 _]. now rewrite H13, H10.
    + rewrite Hg. destruct (line_end (c :: t)) as [[tok rest0]|] eqn:E; [|reflexivity].
      apply line_end_app in E as [E _]. rewrite E.
      rewrite firstn_consumed0, firstn_consumed. reflexivity.
Qed.
End LineBreaks.

Lemma insert_breaks_line_end (s tok rest0 : jsstring) :
  line_end s = Some (tok, rest0) ->
  insert_breaks s = str "<br>" ++ tok ++ insert_breaks rest0.
Proof.
  unfold line_end. destruct s as [|c [|d t]]; [discriminate| |];
    cbn [insert_breaks]; destruct (is_newline c); try discriminate.
  - intros H; inversion H. reflexivity.
  - destruct (is_newline d && negb (N.eqb c d)); intros H; inversion H; reflexivity.
Qed.

Lemma insert_breaks_other (c : jschar) (t : jsstring) :
  is_newline c = false -> insert_breaks (c :: t) = c :: insert_breaks t.
Proof. intros H. cbn [insert_breaks]. now rewrite H. Qed.

Lemma line_end_none (c : jschar) (t : jsstring) :
  line_end (c :: t) = None -> is_newline c = false.
Proof.
  unfold line_end. destruct (is_newline c); [|reflexivity].
  destruct t as [|d t]; [discriminate|].
  destruct (is_newline d && negb (N.eqb c d)); discriminate.
Qed.

Lemma nl_template (input : jsstring) (m : found) :
  substitute (N.of_nat (ngroups nl_pattern)) input m
             (str "$1" ++ str "<br>" ++ str "$2")
  = capture 1 m ++ str "<br>" ++ capture 2 m.
Proof. cbn. now rewrite app_nil_r. Qed.

Lemma replace_nl (input : jsstring) (k : nat) :
  forall n s, length s <= k -> length s < n ->
  replace_loop input nl_pattern
    (fun m => capture 1 m ++ str "<br>" ++ capture 2 m) n s
  = insert_breaks s.
Proof.
  induction k as [|k IH]; intros n s Hk Hn.
  - destruct s; [|simpl in Hk; lia]. apply replace_loop_end. reflexivity.
  - destruct n as [|n]; [lia|]. destruct s as [|c t].
    + apply replace_loop_end. reflexivity.
    + simpl in Hk, Hn.
      pose proof (match_at_nl input (c :: t)) as M. cbv beta iota in M.
      destruct (negb (existsb (N.eqb c) [62; 13; 10]%N)) eqn:Hc.
      * assert (Hnl : is_newline c = false).
        { unfold is_newline. cbn [existsb] in Hc. apply negb_true_iff in Hc.
          apply orb_false_iff in Hc as [_ Hc]. apply orb_false_iff in Hc as [H13 Hc].
          apply orb_false_iff in Hc as [H10 _]. now rewrite H13, H10. }
        rewrite insert_breaks_other by exact Hnl.
        destruct (line_end t) as [[tok rest0]|] eqn:E.
        -- erewrite replace_loop_hit; [|exact M|discriminate].
           erewrite insert_breaks_line_end by exact E.
           apply line_end_app in E as [-> Htok]. cbn [rest].
           rewrite IH by (rewrite length_app in *; lia).
           reflexivity.
        -- rewrite replace_loop_miss by exact M.
           f_equal. apply IH; lia.
      * destruct (line_end (c :: t)) as [[tok rest0]|] eqn:E.
        -- pose proof (line_end_app _ E) as [Hs Htok].
           erewrite replace_loop_hit; [|exact M|exact Htok].
           erewrite insert_breaks_line_end by exact E. cbn [rest].
           assert (length rest0 <= k /\ length rest0 < n).
           { apply (f_equal (@length N)) in Hs. rewrite length_app in Hs.
             simpl in Hs. destruct tok; [contradiction|]. simpl in Hs. lia. }
           rewrite IH by lia. reflexivity.
        -- rewrite replace_loop_miss by exact M.
           rewrite insert_breaks_other by (eapply line_end_none; exact E).
           f_equal. apply IH; lia.
Qed.

(** [nl2br] puts [<br>] before every line ending of the string and changes
    nothing else; the code unit before the line ending, a [>] or another,
    makes no difference. *)
Theorem nl2br_inserts_breaks (s : jsstring) : nl2br s = insert_breaks s.
Proof.
  unfold nl2br, replace_global.
  erewrite replace_loop_ext by (intros m; apply nl_template).
  apply (replace_nl s (k := length s)); lia.
Qed.

(* ================================================================== *)
(** * [mkpath] *)

(** A pattern that starts with [^] matches at the start only. *)
Lemma search_bol_later (input : jsstring) (r : regex) (s : jsstring) :
  length s < length input -> search input (Seq Bol r) s = None.
Proof.
  induction s as [|a s IH]; intros Hl; rewrite search_unfold.
  - unfold match_at. cbn [rmatch].
    replace (Nat.eqb (length (@nil N)) (length input)) with false
      by (symmetry; apply Nat.eqb_neq; lia).
    reflexivity.
  - unfold match_at. cbn [rmatch].
    replace (Nat.eqb (length (a :: s)) (length input)) with false
      by (symmetry; apply Nat.eqb_neq; lia).
    rewrite IH by (simpl in Hl; lia). reflexivity.
Qed.

Lemma replace_leading_slash (s : jsstring) :
  replace_first leading_slash [] s = drop_leading_slash s.
Proof.
  unfold replace_first, leading_slash. rewrite search_unfold.
  unfold match_at. cbn [rmatch]. rewrite Nat.eqb_refl.
  destruct s as [|c s']; [reflexivity|]. cbn [drop_leading_slash].
  destruct (is_char "/" c).
  - cbn [rest substitute app]. reflexivity.
  - rewrite search_bol_later by (simpl; lia). reflexivity.
Qed.

Lemma search_trailing_slash (input s : jsstring) :
  match search input trailing_slash s with
  | None => s
  | Some (pre, m) => pre ++ rest m
  end = drop_trailing_slash s.
Proof.
  induction s as [|c s IH]; rewrite search_unfold; unfold match_at, trailing_slash;
    cbn [rmatch]; [reflexivity|].
  cbn [drop_trailing_slash]. destruct s as [|d s'].
  - destruct (is_char "/" c); reflexivity.
  - replace (if is_char "/" c then None else None)
      with (@None (list N * caps)) by (now destruct (is_char "/" c)).
    fold trailing_slash.
    destruct (search input trailing_slash (d :: s')) as [[pre m]|];
      cbn [app]; now rewrite <- IH.
Qed.

Lemma replace_trailing_slash (s : jsstring) :
  replace_first trailing_slash [] s = drop_trailing_slash s.
Proof.
  unfold replace_first. rewrite <- (search_trailing_slash s s).
  destruct (search s trailing_slash s) as [[pre m]|]; reflexivity.
Qed.

Lemma join_paths_eq (path1 path2 : jsstring) :
  join_paths path1 path2
  = drop_trailing_slash path1 ++ str "/" ++ drop_leading_slash path2.
Proof.
  unfold join_paths. now rewrite replace_trailing_slash, replace_leading_slash.
Qed.

Lemma drop_trailing_app (x y : jsstring) :
  y <> [] -> drop_trailing_slash (x ++ y) = x ++ drop_trailing_slash y.
Proof.
  intros Hy. induction x as [|c x IH]; [reflexivity|].
  cbn [app drop_trailing_slash]. rewrite IH.
  destruct (x ++ y) eqn:E; [|reflexivity].
  apply app_eq_nil in E as [_ E]. contradiction.
Qed.

Lemma drop_trailing_added (x : jsstring) : drop_trailing_slash (x ++ str "/") = x.
Proof. rewrite drop_trailing_app by discriminate. apply app_nil_r. Qed.

Lemma drop_leading_app (x y : jsstring) :
  x <> [] -> drop_leading_slash (x ++ y) = drop_leading_slash x ++ y.
Proof.
  intros Hx. destruct x as [|c x]; [contradiction|].
  cbn [app drop_leading_slash]. now destruct (is_char "/" c).
Qed.

Lemma drop_both_commute (b : jsstring) :
  drop_trailing_slash (drop_leading_slash b) = drop_leading_slash (drop_trailing_slash b).
Proof.
  destruct b as [|c [|d b']]; [reflexivity| |];
    cbn [drop_leading_slash drop_trailing_slash];
    destruct (is_char "/" c) eqn:E;
    cbn [drop_leading_slash drop_trailing_slash]; rewrite ?E; reflexivity.
Qed.

Lemma drop_leading_nil (b : jsstring) :
  drop_leading_slash b = [] -> drop_trailing_slash b = [].
Proof.
  destruct b as [|c [|d b']]; [reflexivity| |]; cbn [drop_leading_slash drop_trailing_slash];
    destruct (is_char "/" c); try discriminate; reflexivity.
Qed.

Lemma drop_trailing_nil (b : jsstring) :
  drop_trailing_slash b = [] -> drop_leading_slash b = [].
Proof.
  destruct b as [|c [|d b']]; [reflexivity| |]; cbn [drop_leading_slash drop_trailing_slash];
    destruct (is_char "/" c); try discriminate; reflexivity.
Qed.

(** Joining strips one slash on each side of the joint, and no more. *)
Theorem join_paths_one_slash (a b : jsstring) :
  join_paths (a ++ str "/") (str "/" ++ b) = a ++ str "/" ++ b /\
  join_paths a b = drop_trailing_slash a ++ str "/" ++ drop_leading_slash b.
Proof.
  split; [|apply join_paths_eq].
  rewrite join_paths_eq, drop_trailing_added. reflexivity.
Qed.

(** Joining paths is associative: however the segments are grouped, the
    joined path is the same. *)
Theorem join_paths_assoc (a b c : jsstring) :
  join_paths (join_paths a b) c = join_paths a (join_paths b c).
Proof.
  rewrite !join_paths_eq.
  destruct (drop_leading_slash b) as [|x lb] eqn:El.
  - rewrite (drop_leading_nil b El). cbn [app].
    rewrite drop_trailing_added. reflexivity.
  - assert (Et : drop_trailing_slash b <> []).
    { intros E. apply drop_trailing_nil in E. congruence. }
    rewrite <- El.
    replace (drop_trailing_slash a ++ str "/" ++ drop_leading_slash b)
      with ((drop_trailing_slash a ++ str "/") ++ drop_leading_slash b)
      by (now rewrite <- app_assoc).
    rewrite drop_trailing_app by (rewrite El; discriminate).
    rewrite drop_leading_app by exact Et.
    rewrite drop_both_commute, <- !app_assoc. reflexivity.
Qed.

Lemma fold_join_clean (segs : list jsstring) :
  Forall clean_segment segs ->
  forall acc, drop_trailing_slash acc = acc ->
  fold_left join_paths segs acc = join (str "/") (acc :: segs).
Proof.
  induction 1 as [|seg segs (Hne & Hl & Ht) _ IH]; intros acc Hacc.
  - reflexivity.
  - cbn [fold_left]. rewrite join_paths_eq, Hacc, Hl.
    rewrite IH.
    + change (join (str "/") (acc :: seg :: segs))
        with (acc ++ str "/" ++ join (str "/") (seg :: segs)).
      destruct segs as [|seg' segs]; [reflexivity|].
      change (join (str "/") ((acc ++ str "/" ++ seg) :: seg' :: segs))
        with ((acc ++ str "/" ++ seg) ++ str "/" ++ join (str "/") (seg' :: segs)).
      change (join (str "/") (seg :: seg' :: segs))
        with (seg ++ str "/" ++ join (str "/") (seg' :: segs)).
      now rewrite <- !app_assoc.
    + replace (acc ++ str "/" ++ seg) with ((acc ++ str "/") ++ seg)
        by (now rewrite <- app_assoc).
      rewrite drop_trailing_app by exact Hne. now rewrite Ht.
Qed.

(** Segments that are not empty and have no slash at their ends are joined
    with one slash between them; the first may start with a slash. *)
Theorem mkpath_clean (first : jsstring) (segs : list jsstring) :
  drop_trailing_slash first = first ->
  Forall clean_segment segs ->
  mkpath (first :: segs) = VStr (join (str "/") (first :: segs)).
Proof.
  intros Hfirst Hsegs. cbn [mkpath]. now rewrite fold_join_clean.
Qed.

Lemma mkpath_clean_witness :
  drop_trailing_slash (str "/root") = str "/root" /\
  Forall clean_segment [str "mypath"; str "asdf"] /\
  mkpath [str "/root"; str "mypath"; str "asdf"] = VStr (str "/root/mypath/asdf").
Proof.
  assert (H1 : drop_trailing_slash (str "/root") = str "/root") by reflexivity.
  assert (H2 : Forall clean_segment [str "mypath"; str "asdf"]).
  { repeat (apply Forall_cons;
            [split; [discriminate|split; reflexivity]|]).
    apply Forall_nil. }
  split; [exact H1|]. split; [exact H2|]. exact (@mkpath_clean (str "/root") [str "mypath"; str "asdf"] H1 H2).
Defined.

(** An empty segment in the middle disappears; at the end it leaves a
    slash. *)
Example mkpath_empty_segments :
  mkpath [str "a"; []; str "b"] = VStr (str "a/b") /\
  mkpath [str "a"; []] = VStr (str "a/") /\
  mkpath [str "/root/"; str "mypath"; str "asdf"; str "fdsa"]
    = VStr (str "/root/mypath/asdf/fdsa") /\
  mkpath [] = VUndef.
Proof. repeat split. Qed.

(* ================================================================== *)
(** * [formatCCLast4] *)

(** A template without a dollar sign stands for itself. *)
Lemma substitute_plain (groups : N) (input : jsstring) (m : found) (tpl : jsstring) :
  existsb (is_char "$") tpl = false -> substitute groups input m tpl = tpl.
Proof.
  induction tpl as [|c t IH]; [reflexivity|].
  cbn [existsb substitute]. intros H. apply orb_false_iff in H as [Hc Ht].
  rewrite Hc. now rewrite (IH Ht).
Qed.

Lemma rmatch_LitI (input name s : jsstring) (c : caps) (k : cont) :
  rmatch input (LitI name) s c k =
  if starts_with_i name s then k (skipn (length name) s) c else None.
Proof.
  revert s; induction name as [|x name IH]; intros s; [reflexivity|].
  cbn [LitI rmatch starts_with_i length skipn]. destruct s as [|d s']; [reflexivity|].
  destruct (jschar_eqb (canonical x) (canonical d)); [apply IH|reflexivity].
Qed.

(** The test on the card type looks at its start, whatever the case. *)
Lemma test_amex (ccType : jsstring) :
  regex_test amex_pattern ccType =
  starts_with_i (str "American") ccType || starts_with_i (str "Amex") ccType.
Proof.
  unfold regex_test, amex_pattern. rewrite search_unfold.
  unfold match_at. cbn [rmatch]. rewrite Nat.eqb_refl, !rmatch_LitI.
  destruct (starts_with_i (str "American") ccType); [reflexivity|].
  destruct (starts_with_i (str "Amex") ccType); [reflexivity|].
  cbn [orb]. destruct ccType as [|a t]; [reflexivity|].
  fold amex_pattern. unfold amex_pattern.
  rewrite search_bol_later by (simpl; lia). reflexivity.
Qed.

(** [formatCCLast4] puts [last4], whatever its length, in the place of the
    last four [X] of the mask, the longer mask of fifteen places when the
    card type starts with [American] or [Amex] in any case; [last4] is
    taken as it is when it holds no dollar sign. *)
Theorem formatCCLast4_mask (ccType last4 : jsstring) :
  existsb (is_char "$") last4 = false ->
  formatCCLast4 ccType last4 =
  (if starts_with_i (str "American") ccType || starts_with_i (str "Amex") ccType
   then str "XXXX XXXXXX X" else str "XXXX XXXX XXXX ") ++ last4.
Proof.
  intros Hplain. unfold formatCCLast4. rewrite test_amex.
  destruct (starts_with_i (str "American") ccType || starts_with_i (str "Amex") ccType);
    unfold replace_first.
  - assert (E : search (str "XXXX XXXXXX XXXXX") last_four (str "XXXX XXXXXX XXXXX")
                = Some (str "XXXX XXXXXX X",
                        {| matched := str "XXXX"; captured := []; rest := [] |}))
      by reflexivity.
    rewrite E. cbn [rest]. now rewrite substitute_plain, app_nil_r.
  - assert (E : search (str "XXXX XXXX XXXX XXXX") last_four (str "XXXX XXXX XXXX XXXX")
                = Some (str "XXXX XXXX XXXX ",
                        {| matched := str "XXXX"; captured := []; rest := [] |}))
      by reflexivity.
    rewrite E. cbn [rest]. now rewrite substitute_plain, app_nil_r.
Qed.

Lemma formatCCLast4_mask_witness :
  existsb (is_char "$") (str "1234") = false /\
  formatCCLast4 (str "amex") (str "1234") = str "XXXX XXXXXX X1234".
Proof.
  assert (H : existsb (is_char "$") (str "1234") = false) by reflexivity.
  split; [exact H|]. exact (@formatCCLast4_mask (str "amex") (str "1234") H).
Defined.

(** In [last4], [$&] stands for the four [X] it replaces. *)
Example formatCCLast4_tests :
  formatCCLast4 (str "visa") (str "1234") = str "XXXX XXXX XXXX 1234" /\
  formatCCLast4 (str "visa") (str "$&") = str "XXXX XXXX XXXX XXXX".
Proof. split; reflexivity. Qed.

(* ================================================================== *)
(** * [matches] *)

Lemma test_each_existsb (l : list regex) (s : jsstring) :
  test_each l s = existsb (fun r => regex_test r s) l.
Proof.
  induction l as [|r l IH]; [reflexivity|].
  cbn [test_each existsb]. rewrite IH. now destruct (regex_test r s).
Qed.

Lemma existsb_reversed {A} (f : A -> bool) (l : list A) :
  existsb f (rev l) = existsb f l.
Proof.
  induction l as [|a l IH]; [reflexivity|].
  cbn [rev existsb]. rewrite existsb_app, IH. cbn [existsb].
  rewrite orb_false_r. apply orb_comm.
Qed.

(** [matches] answers [true] for a string and a list of patterns exactly
    when one of the patterns matches the string, in whatever order they
    come; one pattern is as a list of one; what is not a string matches
    nothing. *)
Theorem matches_some_pattern :
  (forall s l, matches (VStr s) (SomePatterns l) = existsb (fun r => regex_test r s) l) /\
  (forall s r, matches (VStr s) (OnePattern r) = matches (VStr s) (SomePatterns [r])) /\
  (forall v p, isString v = false -> matches v p = false).
Proof.
  repeat split.
  - intros s l. unfold matches. cbn [isString negb].
    now rewrite test_each_existsb, existsb_reversed.
  - intros s r. unfold matches. cbn [isString negb rev app test_each].
    now destruct (regex_test r s).
  - intros v p Hv. unfold matches. now rewrite Hv.
Qed.

Lemma matches_some_pattern_witness :
  isString VNull = false /\ matches VNull (SomePatterns [Eps]) = false.
Proof.
  split; [reflexivity|]. apply (proj2 (proj2 matches_some_pattern)). reflexivity.
Defined.

(* ================================================================== *)
(** * [pluralize] *)

Lemma digit_not_space (c : jschar) : is_digit c = true -> is_space c = false.
Proof.
  unfold is_space, is_digit, in_range. cbn [existsb]. intros H.
  apply andb_true_iff in H as [H1 H2]. apply N.leb_le in H1. apply N.leb_le in H2.
  repeat (apply orb_false_iff; split);
    try (apply andb_false_iff;
         destruct (N.leb_spec 9 c), (N.leb_spec c 13),
                  (N.leb_spec 8192 c), (N.leb_spec c 8202); auto; lia);
    try (apply N.eqb_neq; lia); reflexivity.
Qed.

Lemma digit_value_10 (c : jschar) :
  is_digit c = true -> digit_value 10 c = Some (c - 48)%N.
Proof.
  intros H. unfold digit_value. rewrite H.
  unfold is_digit, in_range in H. apply andb_true_iff in H as [H1 H2].
  apply N.leb_le in H1. apply N.leb_le in H2.
  replace (N.ltb (c - 48) 10) with true by (symmetry; apply N.ltb_lt; lia).
  reflexivity.
Qed.

Lemma read_digits_dec (s : jsstring) :
  Forall (fun c => is_digit c = true) s ->
  forall acc, read_digits 10 (Some acc) s = dec_value acc s.
Proof.
  induction 1 as [|c s Hc _ IH]; intros acc; [reflexivity|].
  cbn [read_digits dec_value]. rewrite (digit_value_10 c Hc), Hc. apply IH.
Qed.

(** A string of decimal digits is read as the number it writes. *)
Lemma parseInt_digits (d : jsstring) :
  digits d -> parseInt d = option_map Z.of_N (dec_value 0 d).
Proof.
  intros [Hne Hd]. destruct d as [|c d']; [contradiction|].
  inversion Hd as [|? ? Hc Hd']; subst.
  unfold parseInt. cbn [skip_while]. rewrite (digit_not_space c Hc).
  assert (Hsign : is_char "-" c = false /\ is_char "+" c = false).
  { clear - Hc. split; class_arith. }
  destruct Hsign as [-> ->]. cbn [snd fst].
  assert (Hradix : match d' with
                   | x :: s' =>
                       if is_char "0" c && one_of "xX" x then (16%N, s')
                       else (10%N, c :: d')
                   | [] => (10%N, c :: d')
                   end = (10%N, c :: d')).
  { destruct d' as [|x d'']; [reflexivity|].
    inversion Hd' as [|? ? Hx _]; subst.
    replace (one_of "xX" x) with false; [now rewrite andb_false_r|].
    symmetry. clear - Hx. unfold one_of. cbn [str list_ascii_of_string map existsb].
    class_arith. }
  rewrite Hradix. cbn [fst snd read_digits dec_value].
  rewrite (digit_value_10 c Hc), Hc, (read_digits_dec Hd').
  destruct (dec_value (10 * 0 + (c - 48)) d'); reflexivity.
Qed.

(** For a count written in decimal digits, [pluralize] adds the [s] unless
    the count is one, leading zeros or not. *)
Theorem pluralize_digits (d unit : jsstring) :
  digits d ->
  pluralize d unit =
  d ++ str " " ++ unit ++
  match dec_value 0 d with
  | Some 1%N => []
  | _ => str "s"
  end.
Proof.
  intros Hd. unfold pluralize. rewrite (parseInt_digits Hd).
  destruct (dec_value 0 d) as [n|]; [|reflexivity]. cbn [option_map].
  destruct n as [|[p|p|]]; reflexivity.
Qed.

Lemma pluralize_digits_witness :
  digits (str "001") /\ pluralize (str "001") (str "unit") = str "001 unit".
Proof.
  assert (H : digits (str "001")) by (split; [discriminate|repeat constructor]).
  split; [exact H|]. exact (@pluralize_digits (str "001") (str "unit") H).
Defined.

(** What [parseInt] makes of other counts. *)
Example pluralize_edges :
  pluralize (str "1.5") (str "unit") = str "1.5 unit" /\
  pluralize (str "0x1") (str "unit") = str "0x1 unit" /\
  pluralize (str "one") (str "unit") = str "one units" /\
  pluralize [] (str "unit") = str " units".
Proof. repeat split. Qed.

(* ================================================================== *)
(** * [llSplit] *)



(* ================================================================== *)
(** * [randomString] *)

(** With a count of tries that is not negative, the error is never handed
    to the callback: an error always leads to another draw, and on errors
    alone the call waits for ever. *)
Theorem randomString_never_fails {B : Type} (draws : list (drawn B)) :
  forall numTries, (0 <= numTries)%Z ->
  randomString numTries draws <> Failed /\
  (Forall (fun d => d = DrawError) draws -> randomString numTries draws = Waiting).
Proof.
  induction draws as [|draw draws IH]; intros numTries Hn.
  - split; [discriminate|reflexivity].
  - cbn [randomString].
    set (tries := if Z.eqb numTries 0 then 3%Z else numTries).
    assert (Ht : (1 <= tries)%Z).
    { unfold tries. destruct (Z.eqb_spec numTries 0); lia. }
    replace (Z.ltb 0 tries) with true by (symmetry; apply Z.ltb_lt; lia).
    destruct (IH (tries - 1)%Z ltac:(lia)) as [IH1 IH2].
    destruct draw as [|buf]; cbn [orb].
    + split; [exact IH1|]. intros Hall. inversion Hall; subst. now apply IH2.
    + destruct (Z.eqb tries 3).
      * split; [exact IH1|]. intros Hall. inversion Hall; subst. now apply IH2.
      * split; [discriminate|]. intros Hall. inversion Hall; discriminate.
Qed.

Lemma randomString_never_fails_witness :
  (0 <= 0)%Z /\
  randomString 0 [DrawError; DrawError; DrawError; @DrawError nat] <> Failed.
Proof.
  split; [lia|]. apply (@randomString_never_fails nat); lia.
Defined.

(** With the default count the first draw is thrown away, good or not: the
    answer is the second buffer drawn. *)
Theorem randomString_discards_first {B : Type} (first : drawn B) (buf : B)
    (draws : list (drawn B)) :
  randomString 0 (first :: DrawBuffer buf :: draws) = Answered buf /\
  randomString 3 (first :: DrawBuffer buf :: draws) = Answered buf /\
  randomString 0 [first] = Waiting.
Proof. destruct first; repeat split. Qed.

(** A negative count makes the first error final. *)
Example randomString_negative :
  randomString (-1) [@DrawError nat; DrawBuffer 7] = Failed /\
  randomString (-1) [DrawBuffer 7] = Answered 7.
Proof. split; reflexivity. Qed.

(* ================================================================== *)
(** * [isNumericMap], the fast check *)

(** [isNumericMap] answers [true] exactly when the fast check is asked for,
    by a truthy flag or by none, the map is not an array, and the first key
    enumerated is numeric; no other key is looked at. *)
Theorem isNumericMap_first_key (map fastCheck : value) :
  isNumericMap map fastCheck =
  (isUndefined fastCheck || truthy fastCheck) && negb (isArray map) &&
  match for_in_keys map with
  | key :: _ => negb (isNaN key)
  | [] => false
  end.
Proof.
  unfold isNumericMap.
  assert (Hfalse : forall fc keys n, truthy fc = false ->
                     numeric_loop fc keys n false = false).
  { intros fc keys. induction keys as [|key keys IH]; intros n Hfc; [reflexivity|].
    cbn [numeric_loop]. rewrite Hfc. destruct (isNaN key); [reflexivity|now apply IH]. }
  assert (Htrue : forall fc keys, truthy fc = true ->
                    numeric_loop fc keys 0 false =
                    match keys with key :: _ => negb (isNaN key) | [] => false end).
  { intros fc [|key keys] Hfc; [reflexivity|].
    cbn [numeric_loop N.eqb negb]. rewrite Hfc.
    destruct (isNaN key); [|reflexivity]. cbn [negb].
    destruct keys as [|key' keys]; [reflexivity|].
    cbn [numeric_loop]. now rewrite Hfc. }
  destruct (isArray map); cbn [negb].
  - now rewrite andb_false_r.
  - rewrite andb_true_r. destruct (isUndefined fastCheck) eqn:Hu; cbn [orb andb].
    + now apply Htrue.
    + destruct (truthy fastCheck) eqn:Ht; cbn [andb]; [now apply Htrue|now apply Hfalse].
Qed.

Unset Implicit Arguments.

(* ================================================================== *)
(** * [Version], the constructor *)

(** [Version] takes a string and nothing else, and [toString] gives the
    string back as it was. *)
Theorem Version_round_trip :
  (forall s, exists v, Version.Version (VStr s) = Ok v /\ Version.toString v = s) /\
  (forall x, isString x = false -> Version.Version x = Throw InvalidVersion).
Proof.
  split.
  - intros s. eexists. split; reflexivity.
  - intros x Hx. unfold Version.Version. now rewrite Hx.
Qed.

Lemma Version_round_trip_witness :
  isString (VNum (num 1)) = false /\
  Version.Version (VNum (num 1)) = Throw InvalidVersion.
Proof.
  split; [reflexivity|]. apply (proj2 Version_round_trip). reflexivity.
Defined.

(* ================================================================== *)
(** * [Device.getType] *)

Module DeviceFacts.
Import Device.

Lemma starts_with_app (name y z : jsstring) :
  starts_with name y = true -> starts_with name (y ++ z) = true.
Proof.
  revert y; induction name as [|c name IH]; intros y H; [reflexivity|].
  destruct y as [|d y]; [discriminate|]. cbn [app starts_with] in *.
  apply andb_true_iff in H as [H1 H2]. now rewrite H1, (IH y H2).
Qed.

Lemma includes_unfold (name s : jsstring) :
  includes name s =
  starts_with name s || match s with [] => false | _ :: s' => includes name s' end.
Proof. destruct s; reflexivity. Qed.

Lemma includes_app_l (name y z : jsstring) :
  includes name y = true -> includes name (y ++ z) = true.
Proof.
  induction y as [|d y IH]; intros H.
  - rewrite includes_unfold in H. rewrite orb_false_r in H.
    destruct name; [|discriminate]. now destruct z.
  - rewrite includes_unfold in H. cbn [app].
    rewrite (includes_unfold name (d :: y ++ z)).
    apply orb_true_iff in H as [H|H].
    + apply (starts_with_app name (d :: y) z) in H. cbn [app] in H. now rewrite H.
    + rewrite (IH H). apply orb_true_r.
Qed.

Lemma includes_app_r (name x y : jsstring) :
  includes name y = true -> includes name (x ++ y) = true.
Proof.
  intros H. induction x as [|d x IH]; [exact H|].
  cbn [app]. rewrite includes_unfold, IH. apply orb_true_r.
Qed.

Lemma join_holds (sep part : jsstring) (parts : list jsstring) :
  In part parts -> exists x z, join sep parts = x ++ part ++ z.
Proof.
  induction parts as [|p parts IH]; [intros []|].
  intros [->|Hin].
  - destruct parts as [|q parts].
    + exists [], []. cbn. now rewrite app_nil_r.
    + exists [], (sep ++ join sep (q :: parts)). reflexivity.
  - destruct (IH Hin) as (x & z & E). destruct parts as [|q parts]; [destruct Hin|].
    exists (p ++ sep ++ x), z.
    change (join sep (p :: q :: parts)) with (p ++ sep ++ join sep (q :: parts)).
    rewrite E. now rewrite <- !app_assoc.
Qed.

Lemma toLowerCase_app (x y : jsstring) :
  toLowerCase (x ++ y) = toLowerCase x ++ toLowerCase y.
Proof. unfold toLowerCase. apply flat_map_app. Qed.

Lemma lower_unit_space (c : jschar) : is_space c = true -> lower_unit c = [c].
Proof.
  intros H. unfold lower_unit.
  destruct (in_range 65 90 c) eqn:E1.
  - exfalso. assert (Hw : is_word c = true) by (unfold is_word; now rewrite E1).
    apply word_not_space in Hw. congruence.
  - destruct (N.eqb_spec c 304) as [->|_]; [discriminate H|].
    destruct (N.eqb_spec c 8490) as [->|_]; [discriminate H|]. reflexivity.
Qed.

Lemma toLowerCase_spaces (w : jsstring) :
  Forall (fun c => is_space c = true) w -> toLowerCase w = w.
Proof.
  induction 1 as [|c w Hc _ IH]; [reflexivity|].
  unfold toLowerCase in *. cbn [flat_map]. now rewrite (lower_unit_space c Hc), IH.
Qed.

Section Spaces.
(** A name that is not empty and holds no white space. *)
Variable name : jsstring.
Hypothesis name_some : name <> [].
Hypothesis name_solid : Forall (fun c => is_space c = false) name.

Lemma starts_with_spaces (n w : jsstring) :
  n <> [] -> Forall (fun c => is_space c = false) n ->
  Forall (fun c => is_space c = true) w -> starts_with n w = false.
Proof.
  intros Hn Hsolid Hw. destruct n as [|x n']; [contradiction|].
  destruct w as [|c w']; [reflexivity|]. cbn [starts_with].
  inversion Hsolid; subst. inversion Hw; subst. unfold jschar_eqb.
  destruct (N.eqb_spec x c) as [->|_]; [congruence|]. reflexivity.
Qed.

Lemma starts_with_before_spaces (n y w : jsstring) :
  Forall (fun c => is_space c = false) n ->
  Forall (fun c => is_space c = true) w ->
  starts_with n (y ++ w) = true -> starts_with n y = true.
Proof.
  intros Hn Hw. revert y. induction Hn as [|x n' Hx Hn' IH]; intros y H; [reflexivity|].
  destruct y as [|b y'].
  - cbn [app] in H. rewrite starts_with_spaces in H; auto; discriminate.
  - cbn [app starts_with] in *. apply andb_true_iff in H as [H1 H2].
    now rewrite H1, (IH y' H2).
Qed.

Lemma includes_spaces (w : jsstring) :
  Forall (fun c => is_space c = true) w -> includes name w = false.
Proof.
  induction 1 as [|c w Hc Hw IH]; rewrite includes_unfold.
  - destruct name; [contradiction|reflexivity].
  - rewrite starts_with_spaces by (auto; now constructor). exact IH.
Qed.

Lemma includes_before_spaces (y w : jsstring) :
  Forall (fun c => is_space c = true) w ->
  includes name (y ++ w) = true -> includes name y = true.
Proof.
  intros Hw. induction y as [|b y IH]; intros H.
  - cbn [app] in H. rewrite includes_spaces in H; auto; discriminate.
  - cbn [app] in H. rewrite includes_unfold in H. rewrite includes_unfold.
    apply orb_true_iff in H as [H|H].
    + apply (starts_with_before_spaces name (b :: y) w name_solid Hw) in H.
      now rewrite H.
    + rewrite (IH H). apply orb_true_r.
Qed.

Lemma skipped_spaces (s : jsstring) :
  exists w, s = w ++ skip_while is_space s /\ Forall (fun c => is_space c = true) w.
Proof.
  induction s as [|c s (w & E & Hw)]; [exists []; split; [reflexivity|constructor]|].
  cbn [skip_while]. destruct (is_space c) eqn:Hc.
  - exists (c :: w). cbn [app]. split; [now rewrite <- E|now constructor].
  - exists []. split; [reflexivity|constructor].
Qed.

Lemma includes_after_spaces (w y : jsstring) :
  Forall (fun c => is_space c = true) w ->
  includes name (w ++ y) = true -> includes name y = true.
Proof.
  induction 1 as [|c w Hc Hw IH]; intros H; [exact H|].
  cbn [app] in H. rewrite includes_unfold in H.
  apply orb_true_iff in H as [H|H]; [|now apply IH].
  destruct name as [|x n']; [contradiction|]. cbn [starts_with] in H.
  inversion name_solid; subst. unfold jschar_eqb in H.
  destruct (N.eqb_spec x c) as [->|_]; [congruence|discriminate].
Qed.

(** Trimming and lowering lose no occurrence of the name. *)
Lemma includes_trim (s : jsstring) :
  includes name (toLowerCase s) = true ->
  includes name (toLowerCase (trim s)) = true.
Proof.
  intros H. unfold trim.
  destruct (skipped_spaces s) as (w1 & E1 & Hw1).
  destruct (skipped_spaces (rev (skip_while is_space s))) as (w2 & E2 & Hw2).
  set (body := rev (skip_while is_space (rev (skip_while is_space s)))) in *.
  assert (Es : s = w1 ++ body ++ rev w2).
  { rewrite E1 at 1. f_equal. apply (f_equal (@rev N)) in E2.
    rewrite rev_involutive, rev_app_distr in E2. exact E2. }
  assert (Hw2' : Forall (fun c => is_space c = true) (rev w2))
    by (apply Forall_rev; exact Hw2).
  rewrite Es, !toLowerCase_app, (toLowerCase_spaces w1 Hw1),
    (toLowerCase_spaces (rev w2) Hw2') in H.
  apply (includes_after_spaces w1 (toLowerCase body ++ rev w2) Hw1) in H.
  now apply (includes_before_spaces (toLowerCase body) (rev w2) Hw2') in H.
Qed.
End Spaces.

(** The loop over the device types, whose keys come in ascending order. *)
Lemma first_type_device (platformString : jsstring) :
  first_type deviceTypes platformString
  = Some (Z.of_N (type_of (toLowerCase platformString))).
Proof.
  assert (E : deviceTypes = [(str "1", str "iphone"); (str "2", str "ipad");
                             (str "3", str "android"); (str "4", str "web")])
    by reflexivity.
  rewrite E. unfold type_of. cbn [first_type].
  destruct (includes (str "iphone") (toLowerCase platformString)); [reflexivity|].
  destruct (includes (str "ipad") (toLowerCase platformString)); [reflexivity|].
  destruct (includes (str "android") (toLowerCase platformString)); [reflexivity|].
  destruct (includes (str "web") (toLowerCase platformString)); reflexivity.
Qed.

(** [getType] joins its arguments with blanks, trims and lowers the result,
    and answers the type whose name it finds first in the order [iphone],
    [ipad], [android], [web]; without arguments, or with blank ones, there is
    no name to find and the answer is [TYPE_UNKNOWN]. *)
Theorem getType_priority (arguments : list jsstring) :
  getType arguments
  = Some (Z.of_N (type_of (toLowerCase (trim (join (str " ") arguments))))).
Proof.
  unfold getType. destruct arguments as [|a l]; [reflexivity|].
  cbn [length Nat.eqb].
  destruct (trim (join (str " ") (a :: l))) as [|c t] eqn:E; [reflexivity|].
  cbn [truthy negb]. apply first_type_device.
Qed.

(** A device name in any of the arguments is found, in whatever case it is
    written; [iphone] wins over the other names. *)
Theorem getType_iphone_anywhere (arguments : list jsstring) (part : jsstring) :
  In part arguments ->
  includes (str "iphone") (toLowerCase part) = true ->
  getType arguments = Some (Z.of_N TYPE_IPHONE).
Proof.
  intros Hin Hpart.
  assert (H : includes (str "iphone")
                (toLowerCase (trim (join (str " ") arguments))) = true).
  { apply includes_trim; [discriminate|repeat constructor|].
    destruct (join_holds (str " ") part arguments Hin) as (x & z & ->).
    rewrite !toLowerCase_app. apply includes_app_r, includes_app_l, Hpart. }
  unfold getType. destruct arguments as [|a l]; [destruct Hin|].
  cbn [length Nat.eqb].
  destruct (trim (join (str " ") (a :: l))) as [|c t] eqn:E; [discriminate H|].
  cbn [truthy negb]. rewrite first_type_device. unfold type_of. now rewrite H.
Qed.

Lemma getType_iphone_anywhere_witness :
  In (str "iphone") [str "asdf"; str "iphone"; str "%$#@!"] /\
  includes (str "iphone") (toLowerCase (str "iphone")) = true /\
  getType [str "asdf"; str "iphone"; str "%$#@!"] = Some (Z.of_N TYPE_IPHONE).
Proof.
  assert (H1 : In (str "iphone") [str "asdf"; str "iphone"; str "%$#@!"])
    by (right; left; reflexivity).
  assert (H2 : includes (str "iphone") (toLowerCase (str "iphone")) = true)
    by reflexivity.
  split; [exact H1|]. split; [exact H2|].
  exact (@getType_iphone_anywhere _ _ H1 H2).
Defined.

(** The device strings of the tests. *)
Example getType_tests :
  getType [str "iPhOnE 6 plus"] = Some (Z.of_N TYPE_IPHONE) /\
  getType [str "andRoid; nexus 5"] = Some (Z.of_N TYPE_ANDROID) /\
  getType [str "asdf"] = Some (Z.of_N TYPE_UNKNOWN) /\
  getType [str "iPaD;%$#@!"] = Some (Z.of_N TYPE_IPAD) /\
  getType [str "asdf"; str "iphone"; str "%$#@!"] = Some (Z.of_N TYPE_IPHONE) /\
  getType [str "cobweb android"] = Some (Z.of_N TYPE_ANDROID).
Proof. repeat split. Qed.

End DeviceFacts.

(* ================================================================== *)
(** * [extractIPv4], when there is an address *)

Lemma search_match_at (input : jsstring) (r : regex) (s pre : jsstring) (m : found) :
  search input r s = Some (pre, m) ->
  exists s', s = pre ++ s' /\ match_at input r s' = Some m.
Proof.
  revert pre; induction s as [|a s IH]; intros pre H; rewrite search_unfold in H.
  - destruct (match_at input r []) eqn:E; [|discriminate].
    inversion H; subst. exists []. auto.
  - destruct (match_at input r (a :: s)) eqn:E.
    + inversion H; subst. exists (a :: s). auto.
    + destruct (search input r s) as [[pre' m']|]; [|discriminate].
      inversion H; subst. destruct (IH pre' eq_refl) as (s' & -> & E').
      exists s'. auto.
Qed.

Lemma skip_while_head (p : jschar -> bool) (a : jschar) (t : jsstring) :
  p a = false -> skip_while p (a :: t) = a :: t.
Proof. intros H. cbn [skip_while]. now rewrite H. Qed.

(** A digit group, and what follows it, before a continuation that
    succeeds there. *)
Lemma rmatch_digits (input g t : jsstring) (c : caps) (k : cont) :
  digits g -> k (skip_while is_digit t) c <> None ->
  rmatch input (Plus (Chr is_digit)) (g ++ t) c k = k (skip_while is_digit t) c.
Proof.
  intros [Hne Hg] Hk. destruct g as [|a g']; [contradiction|].
  inversion Hg as [|? ? Ha Hg']; subst. cbn [app].
  pose proof (@rmatch_plus_chr input is_digit k a (g' ++ t) c Ha) as E.
  rewrite (@skip_while_app is_digit g' t Hg') in E. exact (E Hk).
Qed.

Lemma rmatch_dot_groups (input : jsstring) (groups : list jsstring) :
  Forall digits groups ->
  forall post c k, (forall s' c', k s' c' <> None) ->
  rmatch input (Times (length groups) (Seq (Chr (is_char ".")) (Plus (Chr is_digit))))
         (concat (map (app (str ".")) groups) ++ post) c k <> None.
Proof.
  induction 1 as [|g groups Hg Hgroups IH]; intros post c k Hk.
  - cbn. apply Hk.
  - cbn [length Times map concat]. rewrite <- !app_assoc.
    change (str "." ++ g ++ concat (map (app (str ".")) groups) ++ post)
      with (46%N :: g ++ concat (map (app (str ".")) groups) ++ post).
    cbn [rmatch]. change (is_char "." 46%N) with true. cbv iota.
    assert (Hnext : rmatch input
              (Times (length groups) (Seq (Chr (is_char ".")) (Plus (Chr is_digit))))
              (skip_while is_digit (concat (map (app (str ".")) groups) ++ post)) c k
              <> None).
    { destruct groups as [|g2 groups]; [cbn; apply Hk|].
      cbn [map concat]. rewrite <- !app_assoc.
      change (str "." ++ g2 ++ concat (map (app (str ".")) groups) ++ post)
        with (46%N :: g2 ++ concat (map (app (str ".")) groups) ++ post).
      rewrite skip_while_head by reflexivity.
      specialize (IH post c k Hk). cbn [map concat] in IH.
      rewrite <- !app_assoc in IH. exact IH. }
    rewrite rmatch_digits; auto.
Qed.

Lemma rmatch_quad (input g1 g2 g3 g4 post : jsstring) (c : caps) (k : cont) :
  Forall digits [g1; g2; g3; g4] ->
  (forall s' c', k s' c' <> None) ->
  rmatch input (Seq (Plus (Chr is_digit))
                    (Times 3 (Seq (Chr (is_char ".")) (Plus (Chr is_digit)))))
         (g1 ++ str "." ++ g2 ++ str "." ++ g3 ++ str "." ++ g4 ++ post) c k <> None.
Proof.
  intros Hd Hk. inversion Hd as [|? ? Hg1 Hrest]; subst.
  pose proof (rmatch_dot_groups input [g2; g3; g4] Hrest post c k Hk) as H3.
  cbn [map concat length] in H3. rewrite <- !app_assoc in H3. cbn [app] in H3.
  change (rmatch input (Plus (Chr is_digit))
            (g1 ++ str "." ++ g2 ++ str "." ++ g3 ++ str "." ++ g4 ++ post) c
            (fun s' c' =>
               rmatch input
                 (Times 3 (Seq (Chr (is_char ".")) (Plus (Chr is_digit)))) s' c' k)
          <> None).
  rewrite rmatch_digits; auto;
    change (str "." ++ g2 ++ str "." ++ g3 ++ str "." ++ g4 ++ post)
      with (46%N :: g2 ++ str "." ++ g3 ++ str "." ++ g4 ++ post);
    rewrite skip_while_head by reflexivity; exact H3.
Qed.

(** The pattern matches where a dotted quad starts. *)
Lemma match_at_quad (input t post : jsstring) :
  dotted_quad t -> match_at input ipv4_pattern (t ++ post) <> None.
Proof.
  intros (groups & Hlen & Hd & ->).
  destruct groups as [|g1 [|g2 [|g3 [|g4 [|g5 groups]]]]]; try discriminate.
  unfold match_at.
  assert (H : rmatch input ipv4_pattern (join_dots [g1; g2; g3; g4] ++ post) []
                (fun s' c' => Some (s', c')) <> None).
  { unfold ipv4_pattern. cbn [rmatch join_dots]. rewrite <- !app_assoc.
    apply rmatch_quad; [exact Hd|discriminate]. }
  destruct (rmatch input ipv4_pattern (join_dots [g1; g2; g3; g4] ++ post) []
              (fun s' c' => Some (s', c'))) as [[s' c']|]; [discriminate|contradiction].
Qed.

(** What the pattern matched is its first group, a dotted quad. *)
Lemma match_at_ipv4 (input s : jsstring) (m : found) :
  match_at input ipv4_pattern s = Some m ->
  captured m = [(1, matched m)] /\ dotted_quad (matched m) /\ s = matched m ++ rest m.
Proof.
  unfold match_at. intros H.
  destruct (rmatch input ipv4_pattern s [] (fun s' c' => Some (s', c')))
    as [[s' c']|] eqn:E; [|discriminate].
  unfold ipv4_pattern in E. apply rmatch_group in E; [|reflexivity].
  destruct E as (s1 & s2 & -> & L & E). inversion E; subst s' c'.
  inversion H; subst m. cbn [captured matched rest].
  rewrite firstn_consumed. repeat split.
  apply lang_ipv4. unfold ipv4_pattern. now constructor.
Qed.

(** On a string that holds four dot-separated digit groups, [extractIPv4]
    returns such a dotted quad, one that stands in the string. *)
Theorem extractIPv4_finds_quad (ip : jsstring) :
  has_dotted_quad ip ->
  exists found1 pre post,
    extractIPv4 ip = Ok found1 /\ dotted_quad found1 /\ ip = pre ++ found1 ++ post.
Proof.
  intros (pre0 & t & post0 & -> & Hq).
  assert (Hs : search (pre0 ++ t ++ post0) ipv4_pattern (pre0 ++ t ++ post0) <> None)
    by (apply search_finds, match_at_quad, Hq).
  destruct (search (pre0 ++ t ++ post0) ipv4_pattern (pre0 ++ t ++ post0))
    as [[pre m]|] eqn:E; [|contradiction].
  destruct (search_match_at _ _ _ _ _ E) as (s' & Es & M).
  destruct (match_at_ipv4 _ _ _ M) as (Hc & Hm & Hs').
  exists (matched m), pre, (rest m). split; [|split; [exact Hm|]].
  - unfold extractIPv4, str_match. rewrite E.
    assert (Hne : pre0 ++ t ++ post0 <> []).
    { destruct Hq as (groups & Hl & Hd & ->).
      destruct groups as [|g1 groups]; [discriminate|].
      inversion Hd as [|? ? [Hg1 _] _]; subst.
      destruct g1; [contradiction|]. destruct pre0; destruct groups; discriminate. }
    destruct (pre0 ++ t ++ post0) as [|a ip']; [contradiction|].
    cbn [truthy negb]. unfold match_array, index.
    change (ngroups ipv4_pattern) with 1. cbn [seq map nth]. rewrite Hc.
    cbn [get_cap Nat.eqb].
    destruct Hm as (groups & Hl & Hd & Em).
    destruct (matched m) as [|x mm] eqn:Emm; [|reflexivity].
    destruct groups as [|g1 groups]; [discriminate|].
    inversion Hd as [|? ? [Hg1 _] _]; subst.
    destruct g1; [contradiction|]. destruct groups; discriminate.
  - rewrite Es, Hs'. reflexivity.
Qed.

Lemma extractIPv4_finds_quad_witness :
  has_dotted_quad (str "ip 10.0.0.1 ok") /\
  exists found1 pre post,
    extractIPv4 (str "ip 10.0.0.1 ok") = Ok found1 /\ dotted_quad found1 /\
    str "ip 10.0.0.1 ok" = pre ++ found1 ++ post.
Proof.
  assert (H : has_dotted_quad (str "ip 10.0.0.1 ok")).
  { exists (str "ip "), (str "10.0.0.1"), (str " ok"). split; [reflexivity|].
    exists [str "10"; str "0"; str "0"; str "1"]. split; [reflexivity|].
    split; [|reflexivity].
    repeat (apply Forall_cons; [split; [discriminate|repeat constructor]|]).
    apply Forall_nil. }
  split; [exact H|]. exact (extractIPv4_finds_quad _ H).
Defined.

(* ================================================================== *)
(** * [Version.parse], what it recognises *)

Module ParseFacts.
Import Version.

Lemma versionPattern_parts :
  versionPattern = Seq Bol (Seq (Group 1 (Range 1 3 version_piece)) version_tail).
Proof. reflexivity. Qed.

Lemma lang_version_piece (x : jsstring) :
  lang version_piece x ->
  exists g d, x = g ++ d /\ digits g /\ Forall (fun c => is_char "." c = true) d.
Proof.
  unfold version_piece. intros H.
  inversion H as [ | |? ? g d Hg Hd| | | | | | | ]; subst.
  exists g, d. split; [reflexivity|]. split; [now apply lang_plus_digit|].
  now apply (@lang_star_chr (is_char ".") _ _ Hd).
Qed.

Lemma lang_version_core (v : jsstring) :
  lang (Range 1 3 version_piece) v -> version_text v.
Proof.
  unfold Range. cbn [Nat.sub Times UpTo]. unfold Opt. intros H.
  inversion H as [ | |? ? x1 rest1 H1 H2| | | | | | | ]; subst. clear H.
  inversion H1 as [ | |? ? y1 e1 Hy1 He1| | | | | | | ]; subst. clear H1.
  inversion He1; subst. clear He1.
  apply lang_version_piece in Hy1 as (g1 & d1 & -> & Hg1 & Hd1).
  inversion H2 as [ | | |? ? ? H3|? ? ? H3| | | | | ]; subst; clear H2.
  - inversion H3 as [ | |? ? y2 rest2 Hy2 H4| | | | | | | ]; subst. clear H3.
    apply lang_version_piece in Hy2 as (g2 & d2 & -> & Hg2 & Hd2).
    inversion H4 as [ | | |? ? ? H5|? ? ? H5| | | | | ]; subst; clear H4.
    + inversion H5 as [ | |? ? y3 e3 Hy3 He3| | | | | | | ]; subst. clear H5.
      inversion He3; subst. clear He3.
      apply lang_version_piece in Hy3 as (g3 & d3 & -> & Hg3 & Hd3).
      exists [(g1, d1); (g2, d2); (g3, d3)]. split; [simpl; lia|]. split.
      * repeat (apply Forall_cons; [split; assumption|]). apply Forall_nil.
      * cbn [map concat fst snd]. now rewrite !app_nil_r, <- !app_assoc.
    + inversion H5; subst.
      exists [(g1, d1); (g2, d2)]. split; [simpl; lia|]. split.
      * repeat (apply Forall_cons; [split; assumption|]). apply Forall_nil.
      * cbn [map concat fst snd]. now rewrite !app_nil_r, <- !app_assoc.
  - inversion H3; subst.
    exists [(g1, d1)]. split; [simpl; lia|]. split.
    + repeat (apply Forall_cons; [split; assumption|]). apply Forall_nil.
    + cbn [map concat fst snd]. now rewrite !app_nil_r.
Qed.

(** What a match of the version pattern is made of. *)
Lemma match_at_version (s : jsstring) (m : found) :
  match_at s versionPattern s = Some m ->
  exists v w1 b w2,
    s = v ++ w1 ++ str "(" ++ b ++ str ")" ++ w2 /\
    version_text v /\ spaces w1 /\ digits b /\ spaces w2 /\
    m = {| matched := s; captured := [(2, b); (1, v)]; rest := [] |}.
Proof.
  unfold match_at. intros H.
  destruct (rmatch s versionPattern s [] (fun s' c' => Some (s', c')))
    as [[s' c']|] eqn:E; [|discriminate].
  inversion H; subst m. clear H. rewrite versionPattern_parts in E.
  change (rmatch s (Seq Bol (Seq (Group 1 (Range 1 3 version_piece)) version_tail))
            s [] (fun s' c' => Some (s', c')))
    with (if Nat.eqb (length s) (length s)
          then rmatch s (Group 1 (Range 1 3 version_piece)) s []
                 (fun s' c' => rmatch s version_tail s' c' (fun s'' c'' => Some (s'', c'')))
          else None) in E.
  rewrite Nat.eqb_refl in E.
  apply rmatch_group in E; [|reflexivity].
  destruct E as (v & s2 & Es & Lv & E).
  unfold version_tail in E.
  change (rmatch s (Star (Chr is_space)) s2 [(1, v)]
            (fun s' c' =>
               rmatch s (Seq (Chr (is_char "("))
                        (Seq (Group 2 (Plus (Chr is_digit)))
                        (Seq (Chr (is_char ")"))
                        (Seq (Star (Chr is_space)) Eol)))) s' c'
                 (fun s'' c'' => Some (s'', c''))) = Some (s', c')) in E.
  apply rmatch_group_free in E; [|reflexivity].
  destruct E as (w1 & s3 & E2 & Lw1 & E).
  cbn [rmatch] in E. destruct s3 as [|a s4]; [discriminate|].
  destruct (is_char "(" a) eqn:Ha; [|discriminate].
  apply is_char_eq in Ha. subst a.
  change (rmatch s (Group 2 (Plus (Chr is_digit))) s4 [(1, v)]
            (fun s' c' =>
               rmatch s (Seq (Chr (is_char ")")) (Seq (Star (Chr is_space)) Eol)) s' c'
                 (fun s'' c'' => Some (s'', c''))) = Some (s', c')) in E.
  apply rmatch_group in E; [|reflexivity].
  destruct E as (b & s5 & E4 & Lb & E).
  cbn [rmatch] in E. destruct s5 as [|a s6]; [discriminate|].
  destruct (is_char ")" a) eqn:Ha; [|discriminate].
  apply is_char_eq in Ha. subst a.
  change (rmatch s (Star (Chr is_space)) s6 [(2, b); (1, v)]
            (fun s' c' => rmatch s Eol s' c' (fun s'' c'' => Some (s'', c'')))
          = Some (s', c')) in E.
  apply rmatch_group_free in E; [|reflexivity].
  destruct E as (w2 & s7 & E6 & Lw2 & E).
  cbn [rmatch] in E. destruct s7 as [|a s8]; [|discriminate].
  inversion E; subst s' c'. subst s6 s4 s2.
  exists v, w1, b, w2. rewrite app_nil_r in *.
  split; [exact Es|]. split; [now apply lang_version_core|].
  split; [exact (@lang_star_chr is_space _ _ Lw1 eq_refl)|].
  split; [now apply lang_plus_digit|].
  split; [exact (@lang_star_chr is_space _ _ Lw2 eq_refl)|].
  cbn [length]. now rewrite Nat.sub_0_r, firstn_all.
Qed.

Lemma digits_truthy (g : jsstring) : digits g -> truthy (VStr g) = true.
Proof. intros [Hne _]. destruct g; [contradiction|reflexivity]. Qed.

Lemma version_text_truthy (v : jsstring) : version_text v -> truthy (VStr v) = true.
Proof.
  intros (pieces & Hl & Hp & ->).
  destruct pieces as [|[g d] pieces]; [simpl in Hl; lia|].
  inversion Hp as [|? ? [[Hg _] _] _]; subst. cbn [fst] in Hg.
  destruct g; [contradiction|reflexivity].
Qed.

(** [parse] either answers the empty version and the build [0], or the
    string is a version text, white space, and a build number in
    parentheses up to its end, and the answer is that version text and that
    build number, as they stand. *)
Theorem parse_takes_its_parts (s : jsstring) :
  parse (VStr s) = Ok no_version \/
  exists v w1 b w2,
    s = v ++ w1 ++ str "(" ++ b ++ str ")" ++ w2 /\
    version_text v /\ spaces w1 /\ digits b /\ spaces w2 /\
    parse (VStr s) = Ok {| version := {| ver := v |}; build := VStr b |}.
Proof.
  unfold parse, str_match. rewrite search_unfold.
  destruct (match_at s versionPattern s) as [m|] eqn:M.
  - right. destruct (match_at_version s m M) as (v & w1 & b & w2 & Es & Hv & Hw1 & Hb & Hw2 & ->).
    exists v, w1, b, w2. repeat (split; [assumption|]).
    unfold match_array, index. change (ngroups versionPattern) with 2.
    cbn [captured seq map nth get_cap Nat.eqb]. unfold or_else.
    now rewrite (version_text_truthy v Hv), (digits_truthy b Hb).
  - left. destruct s as [|a t]; [reflexivity|].
    rewrite versionPattern_parts, search_bol_later by (simpl; lia). reflexivity.
Qed.

Lemma skip_while_all (p : jschar -> bool) (w : jsstring) :
  Forall (fun c => p c = true) w -> skip_while p w = [].
Proof.
  intros H. rewrite <- (app_nil_r w). now rewrite (@skip_while_app p w [] H).
Qed.

Lemma skip_while_no_head (p : jschar -> bool) (t : jsstring) :
  no_head p t -> skip_while p t = t.
Proof. destruct t as [|a t]; [reflexivity|]. cbn. now intros ->. Qed.

Section Forward.
Variable input : jsstring.

Let kf : cont := fun s' c' => Some (s', c').

(** The tail of the pattern on white space, a build number in parentheses
    and white space. *)
Lemma rmatch_version_tail (w1 b w2 : jsstring) (c : caps) :
  spaces w1 -> digits b -> spaces w2 ->
  rmatch input version_tail (w1 ++ 40%N :: b ++ 41%N :: w2) c kf
  = Some ([], (2, b) :: c).
Proof.
  intros Hw1 Hb Hw2. unfold version_tail.
  assert (E5 : forall c0, rmatch input (Seq (Star (Chr is_space)) Eol) w2 c0 kf
                          = Some ([], c0)).
  { intros c0.
    change (rmatch input (Star (Chr is_space)) w2 c0
              (fun s' c' => rmatch input Eol s' c' kf) = Some ([], c0)).
    rewrite rmatch_star_chr; rewrite (skip_while_all is_space w2 Hw2);
      [reflexivity|discriminate]. }
  assert (E3 : rmatch input
                 (Seq (Group 2 (Plus (Chr is_digit)))
                 (Seq (Chr (is_char ")")) (Seq (Star (Chr is_space)) Eol)))
                 (b ++ 41%N :: w2) c kf = Some ([], (2, b) :: c)).
  { change (rmatch input (Plus (Chr is_digit)) (b ++ 41%N :: w2) c
              (fun s' c' =>
                 rmatch input (Seq (Chr (is_char ")")) (Seq (Star (Chr is_space)) Eol))
                   s' ((2, firstn (length (b ++ 41%N :: w2) - length s')
                             (b ++ 41%N :: w2)) :: c') kf)
            = Some ([], (2, b) :: c)).
    rewrite rmatch_digits; auto; rewrite skip_while_head by reflexivity;
      rewrite firstn_consumed;
      change (rmatch input (Seq (Chr (is_char ")")) (Seq (Star (Chr is_space)) Eol))
                (41%N :: w2) ((2, b) :: c) kf)
        with (rmatch input (Seq (Star (Chr is_space)) Eol) w2 ((2, b) :: c) kf);
      rewrite E5; [reflexivity|discriminate]. }
  change (rmatch input (Star (Chr is_space)) (w1 ++ 40%N :: b ++ 41%N :: w2) c
            (fun s' c' =>
               rmatch input
                 (Seq (Chr (is_char "("))
                 (Seq (Group 2 (Plus (Chr is_digit)))
                 (Seq (Chr (is_char ")")) (Seq (Star (Chr is_space)) Eol))))
                 s' c' kf) = Some ([], (2, b) :: c)).
  rewrite rmatch_star_chr; rewrite (@skip_while_app is_space w1 _ Hw1);
    rewrite skip_while_head by reflexivity;
    change (rmatch input
              (Seq (Chr (is_char "("))
              (Seq (Group 2 (Plus (Chr is_digit)))
              (Seq (Chr (is_char ")")) (Seq (Star (Chr is_space)) Eol))))
              (40%N :: b ++ 41%N :: w2) c kf)
      with (rmatch input
              (Seq (Group 2 (Plus (Chr is_digit)))
              (Seq (Chr (is_char ")")) (Seq (Star (Chr is_space)) Eol)))
              (b ++ 41%N :: w2) c kf);
    rewrite E3; [reflexivity|discriminate].
Qed.

(** A digit group and its dots, before a continuation that succeeds behind
    them. *)
Lemma rmatch_piece (g t : jsstring) (c : caps) (k : cont) :
  digits g -> no_head is_digit t ->
  k (skip_while (is_char ".") t) c <> None ->
  rmatch input version_piece (g ++ t) c k = k (skip_while (is_char ".") t) c.
Proof.
  intros Hg Ht Hk. unfold version_piece.
  change (rmatch input (Plus (Chr is_digit)) (g ++ t) c
            (fun s' c' => rmatch input (Star (Chr (is_char "."))) s' c' k)
          = k (skip_while (is_char ".") t) c).
  rewrite rmatch_digits; auto; rewrite (skip_while_no_head is_digit t Ht);
    rewrite rmatch_star_chr; auto.
Qed.

Lemma rmatch_piece_miss (t : jsstring) (c : caps) (k : cont) :
  no_head is_digit t -> rmatch input version_piece t c k = None.
Proof.
  intros Ht. unfold version_piece.
  change (rmatch input (Plus (Chr is_digit)) t c
            (fun s' c' => rmatch input (Star (Chr (is_char "."))) s' c' k) = None).
  apply rmatch_plus_chr_miss. destruct t as [|a t]; [reflexivity|].
  cbn in Ht. now rewrite Ht.
Qed.

Lemma rmatch_upto_unfold (n : nat) (s : jsstring) (c : caps) (k : cont) :
  rmatch input (UpTo (S n) version_piece) s c k =
  match rmatch input version_piece s c
          (fun s' c' => rmatch input (UpTo n version_piece) s' c' k) with
  | Some m => Some m
  | None => k s c
  end.
Proof. reflexivity. Qed.

(** No further piece where no digit comes. *)
Lemma rmatch_upto_end (n : nat) (tail : jsstring) (c : caps) (k : cont) :
  no_head is_digit tail -> rmatch input (UpTo n version_piece) tail c k = k tail c.
Proof.
  intros Ht. destruct n; [reflexivity|].
  now rewrite rmatch_upto_unfold, rmatch_piece_miss.
Qed.

(** The digit groups still to come, each behind its dot. *)
Lemma rmatch_upto_groups (tail : jsstring) (k : cont) (c : caps) :
  no_head is_digit tail -> no_head (is_char ".") tail -> k tail c <> None ->
  forall groups n, Forall digits groups -> length groups <= n ->
  rmatch input (UpTo n version_piece)
    (skip_while (is_char ".") (concat (map (app (str ".")) groups) ++ tail)) c k
  = k tail c.
Proof.
  intros Hd Hdot Hk. induction groups as [|g groups IH]; intros n Hg Hn.
  - cbn [map concat app]. rewrite (skip_while_no_head _ tail Hdot).
    now apply rmatch_upto_end.
  - inversion Hg as [|? ? Hg1 Hgs]; subst.
    destruct n as [|n]; [simpl in Hn; lia|]. simpl in Hn.
    cbn [map concat]. rewrite <- !app_assoc.
    change (str "." ++ g ++ concat (map (app (str ".")) groups) ++ tail)
      with (46%N :: g ++ concat (map (app (str ".")) groups) ++ tail).
    cbn [skip_while]. change (is_char "." 46%N) with true. cbv iota.
    assert (Hgd : skip_while (is_char ".")
                    (g ++ concat (map (app (str ".")) groups) ++ tail)
                  = g ++ concat (map (app (str ".")) groups) ++ tail).
    { apply skip_while_no_head. destruct Hg1 as [Hne Hall].
      destruct g as [|a g']; [contradiction|].
      inversion Hall as [|? ? Ha _]; subst.
      change (is_char "." a = false).
      destruct (is_char "." a) eqn:E; [|reflexivity].
      apply is_char_eq in E. subst a. discriminate Ha. }
    rewrite Hgd, rmatch_upto_unfold.
    assert (Hnext : no_head is_digit (concat (map (app (str ".")) groups) ++ tail)).
    { destruct groups as [|g2 groups]; [exact Hd|]. reflexivity. }
    rewrite rmatch_piece; auto; rewrite IH by (auto; lia).
    + destruct (k tail c); [reflexivity|contradiction].
    + exact Hk.
Qed.

(** The first group of the pattern on a dotted version. *)
Lemma rmatch_version_core (groups : list jsstring) (tail : jsstring)
    (k : cont) (c : caps) :
  Forall digits groups -> 1 <= length groups <= 3 ->
  no_head is_digit tail -> no_head (is_char ".") tail -> k tail c <> None ->
  rmatch input (Range 1 3 version_piece) (join_dots groups ++ tail) c k = k tail c.
Proof.
  intros Hg Hl Hd Hdot Hk.
  destruct groups as [|g1 rest]; [simpl in Hl; lia|].
  inversion Hg as [|? ? Hg1 Hrest]; subst.
  assert (Ej : join_dots (g1 :: rest) ++ tail
               = g1 ++ concat (map (app (str ".")) rest) ++ tail).
  { clear. revert g1. induction rest as [|g2 rest IH]; intros g1.
    - cbn. reflexivity.
    - change (join_dots (g1 :: g2 :: rest))
        with (g1 ++ str "." ++ join_dots (g2 :: rest)).
      cbn [map concat]. rewrite <- !app_assoc. now rewrite IH. }
  rewrite Ej.
  change (rmatch input version_piece
            (g1 ++ concat (map (app (str ".")) rest) ++ tail) c
            (fun s' c' => rmatch input (UpTo 2 version_piece) s' c' k)
          = k tail c).
  assert (Hnext : no_head is_digit (concat (map (app (str ".")) rest) ++ tail)).
  { destruct rest as [|g2 rest]; [exact Hd|]. reflexivity. }
  simpl in Hl.
  rewrite rmatch_piece; auto;
    rewrite (rmatch_upto_groups tail k c Hd Hdot Hk rest 2 Hrest) by lia; auto.
Qed.
End Forward.

(** [parse] gives back the two parts of a version written in the usual
    form: one to three digit groups with dots between them, then, behind any
    white space, the build number in parentheses. *)
Theorem parse_round_trip (v w1 b w2 : jsstring) :
  dotted_version v -> spaces w1 -> digits b -> spaces w2 ->
  parse (VStr (v ++ w1 ++ str "(" ++ b ++ str ")" ++ w2))
  = Ok {| version := {| ver := v |}; build := VStr b |}.
Proof.
  intros (groups & Hl & Hg & ->) Hw1 Hb Hw2.
  set (tail := w1 ++ 40%N :: b ++ 41%N :: w2).
  change (join_dots groups ++ w1 ++ str "(" ++ b ++ str ")" ++ w2)
    with (join_dots groups ++ tail).
  assert (Hd : no_head is_digit tail).
  { unfold tail. destruct w1 as [|a w1']; [reflexivity|].
    inversion Hw1; subst.
    change (is_digit a = false).
    destruct (is_digit a) eqn:E; [|reflexivity].
    apply digit_not_space in E. congruence. }
  assert (Hdot : no_head (is_char ".") tail).
  { unfold tail. destruct w1 as [|a w1']; [reflexivity|].
    inversion Hw1 as [|? ? Ha _]; subst.
    change (is_char "." a = false).
    destruct (is_char "." a) eqn:E; [|reflexivity].
    apply is_char_eq in E. subst a. discriminate Ha. }
  assert (M : match_at (join_dots groups ++ tail) versionPattern (join_dots groups ++ tail)
              = Some {| matched := join_dots groups ++ tail;
                        captured := [(2, b); (1, join_dots groups)]; rest := [] |}).
  { unfold match_at. rewrite versionPattern_parts.
    change (rmatch (join_dots groups ++ tail)
              (Seq Bol (Seq (Group 1 (Range 1 3 version_piece)) version_tail))
              (join_dots groups ++ tail) [] (fun s' c' => Some (s', c')))
      with (if Nat.eqb (length (join_dots groups ++ tail))
                       (length (join_dots groups ++ tail))
            then rmatch (join_dots groups ++ tail) (Range 1 3 version_piece)
                   (join_dots groups ++ tail) []
                   (fun s' c' =>
                      rmatch (join_dots groups ++ tail) version_tail s'
                        ((1, firstn (length (join_dots groups ++ tail) - length s')
                               (join_dots groups ++ tail)) :: c')
                        (fun s'' c'' => Some (s'', c'')))
            else None).
    rewrite Nat.eqb_refl.
    rewrite rmatch_version_core; auto; rewrite firstn_consumed;
      unfold tail; rewrite rmatch_version_tail; auto; try discriminate.
    cbn [length]. now rewrite Nat.sub_0_r, firstn_all. }
  unfold parse, str_match. rewrite search_unfold, M.
  unfold match_array, index. change (ngroups versionPattern) with 2.
  cbn [captured seq map nth get_cap Nat.eqb]. unfold or_else.
  rewrite (digits_truthy b Hb).
  assert (Hv : truthy (VStr (join_dots groups)) = true).
  { destruct groups as [|g1 rest]; [simpl in Hl; lia|].
    inversion Hg as [|? ? [Hne _] _]; subst.
    destruct g1; [contradiction|]. destruct rest; reflexivity. }
  now rewrite Hv.
Qed.

Lemma parse_round_trip_witness :
  dotted_version (str "1.2.3") /\ spaces (str " ") /\ digits (str "45") /\ spaces [] /\
  parse (VStr (str "1.2.3" ++ str " " ++ str "(" ++ str "45" ++ str ")" ++ []))
  = Ok {| version := {| ver := str "1.2.3" |}; build := VStr (str "45") |}.
Proof.
  assert (H1 : dotted_version (str "1.2.3")).
  { exists [str "1"; str "2"; str "3"]. split; [simpl; lia|].
    split; [|reflexivity].
    repeat (apply Forall_cons; [split; [discriminate|repeat constructor]|]).
    apply Forall_nil. }
  assert (H2 : spaces (str " ")) by (repeat constructor).
  assert (H3 : digits (str "45")) by (split; [discriminate|repeat constructor]).
  assert (H4 : spaces []) by constructor.
  split; [exact H1|]. split; [exact H2|]. split; [exact H3|]. split; [exact H4|].
  exact (parse_round_trip _ _ _ _ H1 H2 H3 H4).
Defined.

End ParseFacts.

(* ================================================================== *)
(** * [snake2camel], strings in sequences and in mappings *)

Lemma key_style_keep (c : jschar) (t : jsstring) :
  is_char "_" c = false \/ no_head is_lower t ->
  key_style (c :: t) = c :: key_style t.
Proof.
  intros H. destruct t as [|d t']; [reflexivity|].
  change (key_style (c :: d :: t')) with
    (if is_char "_" c && is_lower d then (d - 32)%N :: key_style t'
     else c :: key_style (d :: t')).
  destruct H as [H|H]; [now rewrite H|].
  cbn in H. rewrite H. now rewrite andb_false_r.
Qed.

Lemma upper_not_lower (d : jschar) :
  is_lower d = true ->
  is_lower (d - 32) = false /\ is_char "_" (d - 32)%N = false.
Proof.
  unfold is_lower, in_range, is_char, jschar_eqb. intros H.
  apply andb_true_iff in H as [H1 H2].
  apply N.leb_le in H1. apply N.leb_le in H2.
  change (N_of_ascii "_") with 95%N. split.
  - apply andb_false_iff. left. apply N.leb_gt. lia.
  - apply N.eqb_neq. lia.
Qed.

Lemma underscore_not_lower (c : jschar) :
  is_char "_" c = true -> is_lower c = false.
Proof. intros H. apply is_char_eq in H. now subst c. Qed.

(** What the conversion leaves has no underscore before a lowercase
    letter: a string converted once is not changed by a second
    conversion. *)
Lemma key_style_settled (n : nat) :
  forall s, length s <= n ->
    key_style (key_style s) = key_style s /\
    (no_head is_lower s -> no_head is_lower (key_style s)).
Proof.
  induction n as [|n IH]; intros s Hn.
  - destruct s; [split; [reflexivity|exact (fun H => H)]|simpl in Hn; lia].
  - destruct s as [|c [|d s']]; [split; [reflexivity|exact (fun H => H)]| |].
    + split; [reflexivity|exact (fun H => H)].
    + change (key_style (c :: d :: s')) with
        (if is_char "_" c && is_lower d then (d - 32)%N :: key_style s'
         else c :: key_style (d :: s')).
      simpl in Hn.
      destruct (is_char "_" c && is_lower d) eqn:E.
      * apply andb_true_iff in E as [Ec Ed].
        destruct (upper_not_lower d Ed) as [Hl Hu].
        destruct (IH s' ltac:(lia)) as [IH1 _].
        split; [|intros _; exact Hl].
        rewrite key_style_keep by (now left). now rewrite IH1.
      * destruct (IH (d :: s') ltac:(simpl; lia)) as [IH1 IH2].
        split; [|exact (fun H => H)].
        rewrite key_style_keep; [now rewrite IH1|].
        apply andb_false_iff in E as [E|E]; [now left|right].
        apply IH2. exact E.
Qed.

(** Converting twice is converting once: the string [snake2camel] returns
    for a string is returned unchanged when it is given back to it. *)
Theorem snake2camel_string_settled (s : jsstring) :
  exists r, snake2camel (VStr s) = Ok (VStr r) /\
            snake2camel (VStr r) = Ok (VStr r).
Proof.
  exists (key_style s).
  assert (E : forall t, snake2camel (VStr t) = Ok (VStr (key_style t))).
  { intros [|c t]; [reflexivity|].
    unfold snake2camel; cbn [truthy negb isString]. apply _snake2camel_string. }
  split; [apply E|]. rewrite E.
  now destruct (key_style_settled (length s) s (le_n _)) as [-> _].
Qed.

(** A string that is an element of a sequence is converted like a key,
    whereas a string that is the value of a mapping entry is kept as it is
    under its converted key. *)
Theorem snake2camel_strings_inside :
  (forall l : list jsstring,
     snake2camel (VArr (map VStr l))
     = Ok (VArr (map (fun s => VStr (key_style s)) l))) /\
  (forall key s : jsstring,
     snake2camel (VObj [(key, VStr s)]) = Ok (VObj [(key_style key, VStr s)])).
Proof.
  split.
  - intros l. unfold snake2camel; cbn [truthy negb isString]. unfold _snakeArr2camel.
    assert (E : mapM camel_item (map VStr l)
                = Ok (map (fun s => VStr (key_style s)) l)).
    { induction l as [|s l IH]; [reflexivity|].
      cbn [map mapM].
      change (camel_item (VStr s)) with (_snake2camel (VStr s)).
      now rewrite _snake2camel_string, IH. }
    now rewrite E.
  - intros key s. rewrite snake2camel_VObj.
    assert (A : array_like [(key, VStr s)] = None).
    { unfold array_like. cbn [obj_get]. now destruct (jsstring_eqb _ key). }
    rewrite A. cbn [each each_loop]. unfold each_callback.
    cbn [isFunction negb isPrimitive isNumber isBoolean isString orb bind].
    unfold _snake2camel_key. now rewrite snake_replace_key_style.
Qed.

(** A mapping with a nested sequence and a nested mapping, none of them
    holding [true] in a sequence, is walked. *)
Lemma snake2camel_alike_witness :
  isObject (VObj [(str "my_key", VArr [VStr (str "a_b"); VObj [(str "c", VBool true)]])])
  = true /\
  walkable (VObj [(str "my_key", VArr [VStr (str "a_b"); VObj [(str "c", VBool true)]])])
  = true /\
  exists r,
    snake2camel (VObj [(str "my_key", VArr [VStr (str "a_b"); VObj [(str "c", VBool true)]])])
    = Ok r /\
    alike (VObj [(str "my_key", VArr [VStr (str "a_b"); VObj [(str "c", VBool true)]])]) r.
Proof.
  split; [reflexivity|]. split; [reflexivity|].
  exact (snake2camel_alike
           (VObj [(str "my_key", VArr [VStr (str "a_b"); VObj [(str "c", VBool true)]])])
           eq_refl eq_refl).
Defined.
